(** * rave-level: leader election and promotion of a multi-process facade

    A shallow embedding of [src/index.js].  The class [RaveLevel] is a
    chain of Node.js callbacks; each callback is translated into a
    computation on an explicit [World] (the fields of [this], the closure
    cells, the registered listeners and pending callbacks, and the
    ordered log of calls made to [net], [fs], the storage engine and the
    inherited facade methods).  The event loop is [step]: the
    environment completes one asynchronous operation and the
    corresponding callback runs to completion. *)

From Stdlib Require Import String Ascii List Arith Bool Lia.
From stdpp Require Import base decidable option list gmap strings.
Import ListNotations.
Local Open Scope string_scope.
Local Open Scope list_scope.

(** ** Node's [path] module (posix flavour)

    [path.resolve] and [path.join] are library functions used by the
    constructor and by [socketPath].  The posix versions are modelled on
    segment lists; the win32 [path.resolve] is left as a parameter of
    the constructor. *)

Module Path.

(** Split at every ['/'] (like [String.prototype.split]). *)
Fixpoint split_slash (s : string) : list string :=
  match s with
  | EmptyString => [EmptyString]
  | String c rest =>
      if Ascii.eqb c "/"%char then EmptyString :: split_slash rest
      else match split_slash rest with
           | seg :: segs => String c seg :: segs
           | [] => [String c EmptyString]
           end
  end.

Fixpoint join_slash (segs : list string) : string :=
  match segs with
  | [] => EmptyString
  | [seg] => seg
  | seg :: rest => (seg ++ "/" ++ join_slash rest)%string
  end.

Definition last_is_dotdot (acc : list string) : bool :=
  match acc with
  | seg :: _ => String.eqb seg ".."
  | [] => false
  end.

(** [normalizeString]: the accumulator holds the kept segments in
    reverse order. *)
Fixpoint normalize_segments (allowAboveRoot : bool) (acc segs : list string)
  : list string :=
  match segs with
  | [] => rev acc
  | seg :: rest =>
      if String.eqb seg "" || String.eqb seg "." then
        normalize_segments allowAboveRoot acc rest
      else if String.eqb seg ".." then
        match acc with
        | _ :: acc' =>
            if last_is_dotdot acc
            then normalize_segments allowAboveRoot (seg :: acc) rest
            else normalize_segments allowAboveRoot acc' rest
        | [] =>
            if allowAboveRoot
            then normalize_segments allowAboveRoot [seg] rest
            else normalize_segments allowAboveRoot [] rest
        end
      else normalize_segments allowAboveRoot (seg :: acc) rest
  end.

Definition isAbsolute (p : string) : bool :=
  match p with
  | String c _ => Ascii.eqb c "/"%char
  | EmptyString => false
  end.

Fixpoint ends_with_slash (p : string) : bool :=
  match p with
  | EmptyString => false
  | String c EmptyString => Ascii.eqb c "/"%char
  | String _ rest => ends_with_slash rest
  end.

(** [path.posix.normalize] *)
Definition normalize (p : string) : string :=
  if String.eqb p "" then "." else
  let abs := isAbsolute p in
  let trailing := ends_with_slash p in
  let body := join_slash (normalize_segments (negb abs) [] (split_slash p)) in
  if String.eqb body "" then
    if abs then "/" else if trailing then "./" else "."
  else
    let body := if trailing then (body ++ "/")%string else body in
    if abs then ("/" ++ body)%string else body.

(** [path.posix.join] of two arguments. *)
Definition join (a b : string) : string :=
  if String.eqb a "" then
    if String.eqb b "" then "." else normalize b
  else if String.eqb b "" then normalize a
  else normalize (a ++ "/" ++ b)%string.

(** [path.posix.resolve] of one argument, in a process whose working
    directory is the absolute path [cwd]. *)
Definition resolve (cwd p : string) : string :=
  let full := if isAbsolute p then p else (cwd ++ "/" ++ p)%string in
  ("/" ++ join_slash (normalize_segments false [] (split_slash full)))%string.

End Path.

(** ** Rendezvous address (lines 170-177) *)

Inductive Platform := Win32 | Posix.

(** The JS literal ['\\\\.\\pipe\\rave-level\\'] denotes the characters
    [\\.\pipe\rave-level\]. *)
Definition pipePrefix : string := "\\.\pipe\rave-level\".

Definition socketPath (platform : Platform) (location : string) : string :=
  match platform with
  | Win32 => (pipePrefix ++ location)%string
  | Posix => Path.join location "rave-level.sock"
  end.

(** ** Values *)

(** Handles of the objects created by [net.connect], [new ClassicLevel]
    and [net.createServer]: the index of their allocation. *)
Abbreviation Sock := nat (only parsing).
Abbreviation Db := nat (only parsing).
Abbreviation Server := nat (only parsing).

(** A JS error object: [message], optional [code], optional [cause]. *)
#[local] Unset Elimination Schemes.
Inductive Error : Type :=
  mkError { message : string; code : option string; cause : option Error }.
#[local] Set Elimination Schemes.

(** [new ModuleError(message, { cause })]: no code is given. *)
Definition ModuleError (msg : string) (cause : option Error) : Error :=
  mkError msg None cause.

Definition code_is (c : string) (e : Error) : bool :=
  match code e with
  | Some c' => String.eqb c' c
  | None => false
  end.

(** [err.cause && err.cause.code === 'LEVEL_LOCKED'] (line 71) *)
Definition is_level_locked (err : Error) : bool :=
  match cause err with
  | Some c => code_is "LEVEL_LOCKED" c
  | None => false
  end.

(** [err && err.code !== 'ENOENT'] (line 93) *)
Definition unlink_fatal (err : option Error) : option Error :=
  match err with
  | Some e => if code_is "ENOENT" e then None else Some e
  | None => None
  end.

Inductive Status := Opening | Open | Closing | Closed.

Definition is_open (st : Status) : bool :=
  match st with Open => true | _ => false end.

(** A key-value operation issued on the facade. *)
Inductive Op := Put (k v : string) | Del (k : string).

(** What [attachResource] is given: the storage engine handle (line 63)
    or the object [{ close }] wrapping the server (line 123). *)
Inductive Resource := RDb (db : Db) | RServer (srv : Server).

Inductive Signal := SigLeader | SigFlush | SigError (e : Error).

(** What the owner of the facade can do to it, from its own code or
    from inside one of its event listeners. *)
Inductive UserAction := UClose | UIssue (op : Op).

(** The callbacks handed to asynchronous operations, with the variables
    their closures capture. *)
Inductive Callback :=
| CbOpened                            (* this.open(this[kConnect]), line 33 *)
| CbFollowerEnd (socket : Sock)       (* pipeline callback, line 51 *)
| CbDbOpen (socket : Sock) (db : Db)  (* db.open callback, line 65 *)
| CbUnlink (db : Db)                  (* fs.unlink callback, line 88 *)
| CbListen (srv : Server)             (* server.listen callback, line 129 *)
| CbLoopEnd (sock : Sock)             (* pipeline callback, line 146 *)
| CbTimer                             (* setTimeout(this[kConnect], 100), line 76 *)
| CbHostEnd (srv : Server) (sock : Sock) (* pipeline callback, line 106 *)
| CbResourceClosed (r : Resource)     (* the cb given to a resource's close *)
| CbClosed.                           (* the facade finished closing *)

#[global] Instance Resource_eq_dec : EqDecision Resource.
Proof. solve_decision. Defined.

#[global] Instance Callback_eq_dec : EqDecision Callback.
Proof. solve_decision. Defined.

(** The calls made to the outside world and to the inherited facade
    methods, in the order they are made. *)
Inductive Effect :=
| ENetConnect (s : Sock) (path : string)     (* net.connect(path) *)
| EGuestPipe (s : Sock)                      (* pipeline(s, this.createRpcStream(..), s, cb) *)
| ENewDb (db : Db) (location : string)       (* new ClassicLevel(location, options) *)
| EAttach (r : Resource)                     (* this.attachResource(r) *)
| EDetach (r : Resource)                     (* this.detachResource(r) *)
| EDbOpen (db : Db)                          (* db.open(cb) *)
| ESetTimeout (ms : nat)                     (* setTimeout(cb, ms) *)
| EUnlink (path : string)                    (* fs.unlink(path, cb) *)
| ECreateServer (srv : Server) (db : Db)     (* new ManyLevelHost(db); net.createServer(..) *)
| EForward (db : Db)                         (* this.forward(db) *)
| EServerListen (srv : Server) (path : string) (* server.listen(path, cb) *)
| EServerUnref (srv : Server)                (* server.unref() *)
| EServerClose (srv : Server)                (* server.close(cb) *)
| ESockUnref (s : Sock)                      (* sock.unref() *)
| EHostPipe (srv : Server) (s : Sock)        (* pipeline(s, host.createRpcStream(), s, cb) *)
| ESockDestroy (s : Sock)                    (* sock.destroy() *)
| EEmit (sig : Signal)                       (* this.emit(..) *)
| EDbClose (db : Db)                         (* db.close(cb), from the facade's close *)
| EDbOp (db : Db) (op : Op).                 (* an operation forwarded to db *)

(** ** The world *)

Record World := mkWorld {
  status : Status;              (* this.status *)
  kLocation : string;           (* this[kLocation] *)
  kSocketPath : string;         (* this[kSocketPath] *)
  forwardTo : option Db;        (* guest: the target installed by forward() *)
  resources : list Resource;    (* attached resources, in attachment order *)
  requests : list Op;           (* guest: requests not yet acknowledged *)
  store : list Op;              (* this facade's operations applied to the store *)
  connected : list Sock;        (* the closure cells [connected] that are true *)
  connectL : list Sock;         (* sockets with [onconnect] registered *)
  flushL : list Sock;           (* loopback sockets with [onflush] registered *)
  errorL : list Server;         (* servers with [kDestroy] registered on 'error' *)
  sockets : gmap nat (list nat); (* the Set [sockets] of each server *)
  tasks : list Callback;        (* callbacks of operations in flight *)
  log : list Effect;
  nextId : nat;                 (* next handle to allocate *)
  owner : Signal -> list UserAction (* the owner's listeners *)
}.

(** Field updates. *)
Definition set_status x (w : World) : World :=
  mkWorld x (kLocation w) (kSocketPath w) (forwardTo w) (resources w) (requests w) (store w) (connected w) (connectL w) (flushL w) (errorL w) (sockets w) (tasks w) (log w) (nextId w) (owner w).
Definition set_forwardTo x (w : World) : World :=
  mkWorld (status w) (kLocation w) (kSocketPath w) x (resources w) (requests w) (store w) (connected w) (connectL w) (flushL w) (errorL w) (sockets w) (tasks w) (log w) (nextId w) (owner w).
Definition set_resources x (w : World) : World :=
  mkWorld (status w) (kLocation w) (kSocketPath w) (forwardTo w) x (requests w) (store w) (connected w) (connectL w) (flushL w) (errorL w) (sockets w) (tasks w) (log w) (nextId w) (owner w).
Definition set_requests x (w : World) : World :=
  mkWorld (status w) (kLocation w) (kSocketPath w) (forwardTo w) (resources w) x (store w) (connected w) (connectL w) (flushL w) (errorL w) (sockets w) (tasks w) (log w) (nextId w) (owner w).
Definition set_store x (w : World) : World :=
  mkWorld (status w) (kLocation w) (kSocketPath w) (forwardTo w) (resources w) (requests w) x (connected w) (connectL w) (flushL w) (errorL w) (sockets w) (tasks w) (log w) (nextId w) (owner w).
Definition set_connected x (w : World) : World :=
  mkWorld (status w) (kLocation w) (kSocketPath w) (forwardTo w) (resources w) (requests w) (store w) x (connectL w) (flushL w) (errorL w) (sockets w) (tasks w) (log w) (nextId w) (owner w).
Definition set_connectL x (w : World) : World :=
  mkWorld (status w) (kLocation w) (kSocketPath w) (forwardTo w) (resources w) (requests w) (store w) (connected w) x (flushL w) (errorL w) (sockets w) (tasks w) (log w) (nextId w) (owner w).
Definition set_flushL x (w : World) : World :=
  mkWorld (status w) (kLocation w) (kSocketPath w) (forwardTo w) (resources w) (requests w) (store w) (connected w) (connectL w) x (errorL w) (sockets w) (tasks w) (log w) (nextId w) (owner w).
Definition set_errorL x (w : World) : World :=
  mkWorld (status w) (kLocation w) (kSocketPath w) (forwardTo w) (resources w) (requests w) (store w) (connected w) (connectL w) (flushL w) x (sockets w) (tasks w) (log w) (nextId w) (owner w).
Definition set_sockets x (w : World) : World :=
  mkWorld (status w) (kLocation w) (kSocketPath w) (forwardTo w) (resources w) (requests w) (store w) (connected w) (connectL w) (flushL w) (errorL w) x (tasks w) (log w) (nextId w) (owner w).
Definition set_tasks x (w : World) : World :=
  mkWorld (status w) (kLocation w) (kSocketPath w) (forwardTo w) (resources w) (requests w) (store w) (connected w) (connectL w) (flushL w) (errorL w) (sockets w) x (log w) (nextId w) (owner w).
Definition set_log x (w : World) : World :=
  mkWorld (status w) (kLocation w) (kSocketPath w) (forwardTo w) (resources w) (requests w) (store w) (connected w) (connectL w) (flushL w) (errorL w) (sockets w) (tasks w) x (nextId w) (owner w).
Definition set_nextId x (w : World) : World :=
  mkWorld (status w) (kLocation w) (kSocketPath w) (forwardTo w) (resources w) (requests w) (store w) (connected w) (connectL w) (flushL w) (errorL w) (sockets w) (tasks w) (log w) x (owner w).

(** ** Computations on the world *)

Definition M (A : Type) : Type := World -> A * World.

Definition ret {A} (a : A) : M A := fun w => (a, w).

Definition bind {A B} (m : M A) (k : A -> M B) : M B :=
  fun w => let '(a, w') := m w in k a w'.

Declare Scope rave_scope.
Delimit Scope rave_scope with rave.
Notation "x <- c ;; k" := (bind c (fun x => k))
  (at level 100, c at next level, right associativity) : rave_scope.
Notation "c ;; k" := (bind c (fun _ => k))
  (at level 100, right associativity) : rave_scope.
Local Open Scope rave_scope.

Definition exec {A} (m : M A) (w : World) : World := snd (m w).

Definition gets {A} (f : World -> A) : M A := fun w => (f w, w).

Definition modify (f : World -> World) : M unit := fun w => (tt, f w).

Fixpoint forEach {A} (l : list A) (body : A -> M unit) : M unit :=
  match l with
  | [] => ret tt
  | x :: rest => body x ;; forEach rest body
  end.

Definition call (e : Effect) : M unit :=
  modify (fun w => set_log (log w ++ [e]) w).

Definition fresh : M nat :=
  fun w => (nextId w, set_nextId (S (nextId w)) w).

Definition later (cb : Callback) : M unit :=
  modify (fun w => set_tasks (tasks w ++ [cb]) w).

(** A JS [Set] keeps insertion order and ignores a second [add]. *)
Definition set_add (x : nat) (l : list nat) : list nat :=
  if bool_decide (x ∈ l) then l else l ++ [x].

Definition set_delete (x : nat) (l : list nat) : list nat :=
  filter (fun y => y ≠ x) l.

(** *** Node and storage-engine calls *)

Definition net_connect (path : string) : M Sock :=
  s <- fresh ;; call (ENetConnect s path) ;; ret s.

Definition socket_once_connect (s : Sock) : M unit :=
  modify (fun w => set_connectL (set_add s (connectL w)) w).

Definition socket_removeListener_connect (s : Sock) : M unit :=
  modify (fun w => set_connectL (set_delete s (connectL w)) w).

Definition new_ClassicLevel (location : string) : M Db :=
  db <- fresh ;; call (ENewDb db location) ;; ret db.

Definition db_open (db : Db) (cb : Callback) : M unit :=
  call (EDbOpen db) ;; later cb.

Definition setTimeout (cb : Callback) (ms : nat) : M unit :=
  call (ESetTimeout ms) ;; later cb.

Definition fs_unlink (path : string) (cb : Callback) : M unit :=
  call (EUnlink path) ;; later cb.

(** [new ManyLevelHost(db)], [new Set()] and [net.createServer(..)]
    (lines 98-109): the server starts with an empty set of sockets. *)
Definition net_createServer (db : Db) : M Server :=
  srv <- fresh ;;
  modify (fun w => set_sockets (<[srv := []]> (sockets w)) w) ;;
  call (ECreateServer srv db) ;;
  ret srv.

Definition server_on_error (srv : Server) : M unit :=
  modify (fun w => set_errorL (errorL w ++ [srv]) w).

Definition server_removeListener_error (srv : Server) : M unit :=
  modify (fun w => set_errorL (set_delete srv (errorL w)) w).

Definition server_listen (srv : Server) (path : string) (cb : Callback) : M unit :=
  call (EServerListen srv path) ;; later cb.

Definition server_close (srv : Server) (cb : Callback) : M unit :=
  call (EServerClose srv) ;; later cb.

(** *** Inherited facade methods

    The class extends the RPC guest, which extends the abstract store;
    their source is not part of this repository. *)

(** Modelled from the spec: the facade maintains an ordered set of
    attached resources; [attachResource] adds one. *)
Definition attachResource (r : Resource) : M unit :=
  call (EAttach r) ;;
  modify (fun w =>
    if bool_decide (r ∈ resources w) then w
    else set_resources (resources w ++ [r]) w).

(** Modelled from the spec: [detachResource] takes a resource out of
    the set of attached resources. *)
Definition detachResource (r : Resource) : M unit :=
  call (EDetach r) ;;
  modify (fun w => set_resources (filter (fun r' => r' ≠ r) (resources w)) w).

(** Modelled from the spec: [forward(target)] redirects future calls to
    [target] in-process. *)
Definition forward (db : Db) : M unit :=
  call (EForward db) ;;
  modify (set_forwardTo (Some db)).

(** Modelled from the spec: [isFlushed()] says that no call is
    outstanding. *)
Definition isFlushed (w : World) : bool :=
  match requests w with [] => true | _ => false end.

(** The [close] closure of lines 113-120. *)
Definition serverClose (srv : Server) (cb : Callback) : M unit :=
  socks <- gets (fun w => default [] (sockets w !! srv)) ;;
  forEach socks (fun sock => call (ESockDestroy sock)) ;;
  server_removeListener_error srv ;;
  server_close srv cb.

(** Modelled from the spec: closing an attached resource is [db.close]
    for the storage engine handle and the [close] closure for the
    server. *)
Definition closeResource (r : Resource) : M unit :=
  match r with
  | RDb db => call (EDbClose db) ;; later (CbResourceClosed r)
  | RServer srv => serverClose srv (CbResourceClosed r)
  end.

(** Modelled from the spec: closing an open facade moves it to
    [Closing], closes every attached resource in attachment order and
    empties the registry; it reports [Closed] later.  A close asked
    for while the facade is still opening is left out. *)
Definition close : M unit :=
  st <- gets status ;;
  if is_open st then
    modify (set_status Closing) ;;
    rs <- gets resources ;;
    forEach rs closeResource ;;
    modify (set_resources []) ;;
    later CbClosed
  else ret tt.

(** Modelled from the spec: an operation accepted in direct mode goes
    straight to the storage engine; in proxy mode it joins the
    outstanding requests. *)
Definition issue (op : Op) : M unit :=
  st <- gets status ;;
  if is_open st then
    target <- gets forwardTo ;;
    match target with
    | Some db =>
        call (EDbOp db op) ;;
        modify (fun w => set_store (store w ++ [op]) w)
    | None => modify (fun w => set_requests (requests w ++ [op]) w)
    end
  else ret tt.

Definition user (a : UserAction) : M unit :=
  match a with
  | UClose => close
  | UIssue op => issue op
  end.

(** [const onflush = () => { sock.destroy() }] (line 144) *)
Definition onflush (sock : Sock) : M unit :=
  call (ESockDestroy sock).

(** Modelled from the spec: [this.emit(sig)] hands the signal to its
    listeners, which run synchronously: the [once('flush')] listeners
    of line 155 on a flush signal (they are then gone), and the
    owner's listeners. *)
Definition emit (sig : Signal) : M unit :=
  call (EEmit sig) ;;
  match sig with
  | SigFlush =>
      ls <- gets flushL ;;
      modify (set_flushL []) ;;
      forEach ls onflush
  | _ => ret tt
  end ;;
  acts <- gets (fun w => owner w sig) ;;
  forEach acts user.

Definition once_flush (sock : Sock) : M unit :=
  modify (fun w => set_flushL (flushL w ++ [sock]) w).

Definition removeListener_flush (sock : Sock) : M unit :=
  modify (fun w => set_flushL (set_delete sock (flushL w)) w).

(** ** The class [RaveLevel] (lines 17-168) *)

(** [kDestroy] (lines 162-167) *)
Definition kDestroy (err : Error) : M unit :=
  st <- gets status ;;
  if is_open st then emit (SigError err) else ret tt.

(** [kConnect] up to the call of [pipeline] (lines 36-51); the callback
    given to [pipeline] is [onFollowerEnd]. *)
Definition kConnect : M unit :=
  st <- gets status ;;
  if negb (is_open st) then ret tt else
  path <- gets kSocketPath ;;
  socket <- net_connect path ;;
  (* let connected = false: the cell of [socket] is not in [connected] *)
  socket_once_connect socket ;;
  call (EGuestPipe socket) ;;
  later (CbFollowerEnd socket).

(** [const onconnect = () => { connected = true }] (line 47) *)
Definition onconnect (socket : Sock) : M unit :=
  modify (fun w => set_connected (set_add socket (connected w)) w).

(** The callback of [db.open] (lines 65-158), up to [fs.unlink]. *)
Definition onDbOpen (socket : Sock) (db : Db) (err : option Error) : M unit :=
  match err with
  | Some e =>
      detachResource (RDb db) ;;
      if is_level_locked e then
        was <- gets (fun w => bool_decide (socket ∈ connected w)) ;;
        if was then kConnect else setTimeout CbTimer 100
      else kDestroy e
  | None =>
      st <- gets status ;;
      if negb (is_open st) then ret tt else
      path <- gets kSocketPath ;;
      fs_unlink path (CbUnlink db)
  end.

(** The callback of the follower [pipeline] (lines 51-159), up to
    [db.open]. *)
Definition onFollowerEnd (socket : Sock) : M unit :=
  socket_removeListener_connect socket ;;
  st <- gets status ;;
  if negb (is_open st) then ret tt else
  loc <- gets kLocation ;;
  db <- new_ClassicLevel loc ;;
  attachResource (RDb db) ;;
  db_open db (CbDbOpen socket db).

(** The callback of [fs.unlink] (lines 88-157), up to [server.listen]. *)
Definition onUnlink (db : Db) (err : option Error) : M unit :=
  st <- gets status ;;
  if negb (is_open st) then ret tt else
  match unlink_fatal err with
  | Some e => kDestroy e
  | None =>
      srv <- net_createServer db ;;
      server_on_error srv ;;
      attachResource (RServer srv) ;;
      forward db ;;
      path <- gets kSocketPath ;;
      server_listen srv path (CbListen srv)
  end.

(** The connection listener of the server (lines 102-109). *)
Definition onAccept (srv : Server) : M unit :=
  sock <- fresh ;;
  call (ESockUnref sock) ;;
  modify (fun w =>
    set_sockets (<[srv := set_add sock (default [] (sockets w !! srv))]> (sockets w)) w) ;;
  call (EHostPipe srv sock) ;;
  later (CbHostEnd srv sock).

(** The callback of the host [pipeline] (lines 106-108); its error
    argument is not looked at. *)
Definition onHostEnd (srv : Server) (sock : Sock) : M unit :=
  modify (fun w =>
    set_sockets (<[srv := set_delete sock (default [] (sockets w !! srv))]> (sockets w)) w).

(** The callback of the loopback [pipeline] (lines 146-153). *)
Definition onLoopEnd (sock : Sock) (err : option Error) : M unit :=
  removeListener_flush sock ;;
  flushed <- gets isFlushed ;;
  st <- gets status ;;
  if negb flushed && is_open st
  then kDestroy (ModuleError "Did not flush" err)
  else ret tt.

(** The callback of [server.listen] (lines 129-156). *)
Definition onListen (srv : Server) : M unit :=
  call (EServerUnref srv) ;;
  st <- gets status ;;
  if negb (is_open st) then ret tt else
  emit SigLeader ;;
  st <- gets status ;;
  flushed <- gets isFlushed ;;
  if negb (is_open st) || flushed then ret tt else
  path <- gets kSocketPath ;;
  sock <- net_connect path ;;
  call (EGuestPipe sock) ;;
  later (CbLoopEnd sock) ;;
  once_flush sock.

(** Modelled from the spec: the guest receives the answer to its oldest
    outstanding request (which a host has applied to the store), and
    signals [flush] when none is left. *)
Definition ack : M unit :=
  rq <- gets requests ;;
  match rq with
  | [] => ret tt
  | op :: rest =>
      modify (fun w => set_store (store w ++ [op]) (set_requests rest w)) ;;
      match rest with
      | [] => emit SigFlush
      | _ => ret tt
      end
  end.

(** ** The event loop *)

(** Running a callback whose operation completed with [err]. *)
Definition invoke (cb : Callback) (err : option Error) : M unit :=
  match cb with
  | CbOpened =>
      modify (fun w => match status w with Opening => set_status Open w | _ => w end) ;;
      kConnect
  | CbFollowerEnd socket => onFollowerEnd socket
  | CbDbOpen socket db => onDbOpen socket db err
  | CbUnlink db => onUnlink db err
  | CbListen srv => onListen srv
  | CbLoopEnd sock => onLoopEnd sock err
  | CbTimer => kConnect
  | CbHostEnd srv sock => onHostEnd srv sock
  | CbResourceClosed _ => ret tt
  | CbClosed => modify (set_status Closed)
  end.

Fixpoint remove_task (cb : Callback) (l : list Callback) : list Callback :=
  match l with
  | [] => []
  | cb' :: rest => if bool_decide (cb' = cb) then rest else cb' :: remove_task cb rest
  end.

Inductive Event :=
| EvDone (cb : Callback) (err : option Error) (* an operation in flight completes *)
| EvConnect (socket : Sock)                   (* 'connect' on a follower socket *)
| EvServerError (srv : Server) (e : Error)    (* 'error' on a server *)
| EvAccept (srv : Server)                     (* a peer connects to a server *)
| EvAck (s : Sock)                            (* an answer arrives over the stream on s *)
| EvUser (a : UserAction).                    (* the owner acts *)

(** A server takes connections once it was asked to listen and until
    it is closed. *)
Definition accepting (srv : Server) (w : World) : bool :=
  existsb (fun e => match e with EServerListen s _ => Nat.eqb s srv | _ => false end)
    (log w)
  && negb (existsb (fun e => match e with EServerClose s => Nat.eqb s srv | _ => false end)
             (log w)).

(** Answers only arrive over a stream whose pipeline has not ended. *)
Definition stream_alive (s : Sock) (w : World) : bool :=
  bool_decide (CbFollowerEnd s ∈ tasks w) || bool_decide (CbLoopEnd s ∈ tasks w).

Definition step (ev : Event) (w : World) : World :=
  match ev with
  | EvDone cb err =>
      if bool_decide (cb ∈ tasks w)
      then exec (invoke cb err) (set_tasks (remove_task cb (tasks w)) w)
      else w
  | EvConnect socket =>
      if bool_decide (socket ∈ connectL w)
      then exec (socket_removeListener_connect socket ;; onconnect socket) w
      else w
  | EvServerError srv e =>
      if bool_decide (srv ∈ errorL w) then exec (kDestroy e) w else w
  | EvAccept srv =>
      if accepting srv w then exec (onAccept srv) w else w
  | EvAck s =>
      if stream_alive s w then exec ack w else w
  | EvUser a => exec (user a) w
  end.

Definition run (evs : list Event) (w : World) : World :=
  fold_left (fun w ev => step ev w) evs w.

(** The constructor (lines 18-34): [resolve] is [path.resolve] of the
    running process.  The encoding and retry options only reach the
    guest and the storage engine and are left out. *)
Definition RaveLevel (platform : Platform) (resolve : string -> string)
    (location : string) (listeners : Signal -> list UserAction) : World :=
  let loc := resolve location in
  {| status := Opening;
     kLocation := loc;
     kSocketPath := socketPath platform loc;
     forwardTo := None;
     resources := [];
     requests := [];
     store := [];
     connected := [];
     connectL := [];
     flushL := [];
     errorL := [];
     sockets := ∅;
     tasks := [CbOpened];
     log := [];
     nextId := 0;
     owner := listeners |}.

(** ** Observations on a world *)

(** The errors signalled to the owner, in order. *)
Fixpoint errors (l : list Effect) : list Error :=
  match l with
  | [] => []
  | EEmit (SigError e) :: rest => e :: errors rest
  | _ :: rest => errors rest
  end.

(** The calls by which the election and the promotion move forward.
    The timer of line 76 is not among them: all it does later is call
    the guarded [kConnect]. *)
Definition progress (e : Effect) : bool :=
  match e with
  | ENetConnect _ _ | EGuestPipe _ | ENewDb _ _ | EAttach _ | EDbOpen _
  | EUnlink _ | ECreateServer _ _ | EForward _ | EServerListen _ _
  | EEmit SigLeader | EEmit (SigError _) => true
  | _ => false
  end.

(** How often the close of handle [db] was requested. *)
Fixpoint closes (db : Db) (l : list Effect) : nat :=
  match l with
  | [] => 0
  | EDbClose db' :: rest => (if Nat.eqb db' db then 1 else 0) + closes db rest
  | _ :: rest => closes db rest
  end.

(** What the owner's own actions (and the flush listeners) can add to
    the log, given the attached resources [rs]. *)
Definition owner_effect (rs : list Resource) (e : Effect) : Prop :=
  match e with
  | ESockDestroy _ | EServerClose _ | EDbOp _ _ => True
  | EDbClose db => RDb db ∈ rs
  | _ => False
  end.

(** The callbacks registered by a close. *)
Definition closing_task (cb : Callback) : Prop :=
  match cb with
  | CbResourceClosed _ | CbClosed => True
  | _ => False
  end.

(** The callbacks that only exist once the server was created. *)
Definition promoted (cb : Callback) : Prop :=
  match cb with
  | CbListen _ | CbLoopEnd _ => True
  | _ => False
  end.

(** Everything an owner action may change, and nothing else. *)
Record owner_frame (w w' : World) : Prop := {
  of_location : kLocation w' = kLocation w;
  of_socketPath : kSocketPath w' = kSocketPath w;
  of_owner : owner w' = owner w;
  of_forwardTo : forwardTo w' = forwardTo w;
  of_nextId : nextId w' = nextId w;
  of_connected : connected w' = connected w;
  of_connectL : connectL w' = connectL w;
  of_sockets : sockets w' = sockets w;
  of_flushL : flushL w' = flushL w \/ flushL w' = [];
  of_status : status w' = status w \/ (status w = Open /\ status w' = Closing);
  of_resources : resources w' = resources w \/ resources w' = [];
  of_errorL : forall srv, srv ∈ errorL w' -> srv ∈ errorL w;
  of_tasks : exists t, tasks w' = tasks w ++ t /\ Forall closing_task t;
  of_log : exists l, log w' = log w ++ l /\ Forall (owner_effect (resources w)) l
}.

(** Whenever a callback of the promoted phase is in flight, the facade
    is already in direct mode. *)
Definition direct_if_promoted (w : World) : Prop :=
  forall cb, promoted cb -> cb ∈ tasks w -> is_Some (forwardTo w).

(** The facade has begun or finished closing. *)
Definition shut (w : World) : Prop := status w = Closing \/ status w = Closed.

(** Handle [db] was allocated and is not in the registry. *)
Definition detached (db : nat) (w : World) : Prop :=
  db < nextId w /\ RDb db ∉ resources w.

(** The calls that name a channel address all name [path]. *)
Definition addressed (path : string) (e : Effect) : Prop :=
  match e with
  | ENetConnect _ p | EUnlink p | EServerListen _ p => p = path
  | _ => True
  end.

Definition one_address (w : World) : Prop :=
  Forall (addressed (kSocketPath w)) (log w).

(** First position of an effect satisfying [p]. *)
Fixpoint index_of (p : Effect -> bool) (l : list Effect) : option nat :=
  match l with
  | [] => None
  | e :: rest => if p e then Some 0 else option_map S (index_of p rest)
  end.

Definition is_listen (e : Effect) : bool :=
  match e with EServerListen _ _ => true | _ => false end.
Definition is_forward (e : Effect) : bool :=
  match e with EForward _ => true | _ => false end.
Definition is_leader (e : Effect) : bool :=
  match e with EEmit SigLeader => true | _ => false end.
Definition is_connect_of (s : Sock) (e : Effect) : bool :=
  match e with ENetConnect s' _ => Nat.eqb s' s | _ => false end.

(** The order of the promotion steps as the specification words it:
    the server listens, then the loopback connection of the flush
    barrier (socket [loop]) is opened, and only then come the switch to
    direct mode and the leader signal. *)
Definition spec_promotion_order (loop : Sock) (l : list Effect) : Prop :=
  exists i j k m,
    index_of is_listen l = Some i /\
    index_of (is_connect_of loop) l = Some j /\
    index_of is_forward l = Some k /\
    index_of is_leader l = Some m /\
    i < j /\ j < k /\ j < m.

(** What the specification promises after a fatal condition: one
    error signal at most, and a facade that is no longer open once it
    was signalled. *)
Definition spec_fatal_is_terminal (w : World) : Prop :=
  length (errors (log w)) <= 1 /\
  (errors (log w) <> [] -> status w <> Open).

(** ** Further observations *)

(** The callbacks of the election and the promotion: each is registered
    by its predecessor in the chain of [kConnect]. *)
Definition chain (cb : Callback) : bool :=
  match cb with
  | CbOpened | CbFollowerEnd _ | CbDbOpen _ _ | CbUnlink _ | CbListen _
  | CbLoopEnd _ | CbTimer => true
  | _ => false
  end.

(** Those of the election, before a server exists. *)
Definition electing (cb : Callback) : bool :=
  match cb with
  | CbOpened | CbFollowerEnd _ | CbDbOpen _ _ | CbUnlink _ | CbTimer => true
  | _ => false
  end.

(** Those that lead to a new follower connection or to the engine. *)
Definition early (cb : Callback) : bool :=
  match cb with
  | CbOpened | CbFollowerEnd _ | CbTimer => true
  | _ => false
  end.

Definition is_listen_cb (cb : Callback) : bool :=
  match cb with CbListen _ => true | _ => false end.

Definition pending (p : Callback -> bool) (w : World) : nat :=
  length (List.filter p (tasks w)).

Definition count (p : Effect -> bool) (w : World) : nat :=
  length (List.filter p (log w)).

Definition is_create_server (e : Effect) : bool :=
  match e with ECreateServer _ _ => true | _ => false end.
Definition is_new_db (e : Effect) : bool :=
  match e with ENewDb _ _ => true | _ => false end.
Definition is_timeout (e : Effect) : bool :=
  match e with ESetTimeout _ => true | _ => false end.

(** The calls only a leader-elect makes: removing the socket file,
    creating and binding the server, switching to direct mode,
    signalling leadership. *)
Definition leader_only (e : Effect) : bool :=
  match e with
  | EUnlink _ | ECreateServer _ _ | EForward _ | EServerListen _ _
  | EServerUnref _ | EEmit SigLeader => true
  | _ => false
  end.

(** The calls of the election proper. *)
Definition election_call (e : Effect) : bool :=
  match e with
  | ENewDb _ _ | EDbOpen _ | EUnlink _ | ECreateServer _ _ | EForward _
  | EServerListen _ _ | ESetTimeout _ => true
  | _ => false
  end.

(** The events after which the source calls [kDestroy]. *)
Definition fatal_event (ev : Event) : bool :=
  match ev with
  | EvDone (CbDbOpen _ _) (Some e) => negb (is_level_locked e)
  | EvDone (CbUnlink _) err =>
      match unlink_fatal err with Some _ => true | None => false end
  | EvDone (CbLoopEnd _) _ => true
  | EvServerError _ _ => true
  | _ => false
  end.

(** The engine open of some handle succeeds. *)
Definition lock_won (ev : Event) : bool :=
  match ev with
  | EvDone (CbDbOpen _ _) None => true
  | _ => false
  end.

Definition is_connect_event (ev : Event) : bool :=
  match ev with EvConnect _ => true | _ => false end.

(** Election callbacks and servers exclude each other, and a leader
    signal needs a server whose listen callback has run. *)
Definition promoted_once (w : World) : Prop :=
  pending electing w + count is_create_server w <= 1 /\
  pending is_listen_cb w + count is_leader w <= count is_create_server w.

(** A facade that created a server is in direct mode. *)
Definition served_direct (w : World) : Prop :=
  0 < count is_create_server w -> is_Some (forwardTo w).

(** The callbacks that only a facade holding the engine lock has. *)
Definition leading_cb (cb : Callback) : bool :=
  match cb with
  | CbUnlink _ | CbListen _ | CbLoopEnd _ => true
  | _ => false
  end.

(** A facade that has not won the lock: proxy mode, no leader callback
    in flight, no leader call made. *)
Definition follower (w : World) : Prop :=
  pending leading_cb w = 0 /\
  List.filter leader_only (log w) = [] /\
  forwardTo w = None.

(** Without a connect event no attempt is marked connected, and every
    engine handle but the first was paid for by a timer. *)
Definition backed_off (w : World) : Prop :=
  connected w = [] /\
  count is_new_db w + pending early w <= count is_timeout w + 1.

(** A listener is only registered while the pipeline it belongs to is
    in flight. *)
Definition listeners_live (w : World) : Prop :=
  (forall s, s ∈ connectL w -> CbFollowerEnd s ∈ tasks w) /\
  (forall s, s ∈ flushL w -> CbLoopEnd s ∈ tasks w).

Definition is_host_end (cb : Callback) : bool :=
  match cb with CbHostEnd _ _ => true | _ => false end.

(** The host pipelines in flight. *)
Definition host_ends (w : World) : list Callback :=
  List.filter is_host_end (tasks w).

(** The Set [sockets] of server [srv] (empty before it is created). *)
Definition sockets_of (srv : nat) (w : World) : list nat :=
  default [] (sockets w !! srv).

(** What [w'] logged after [w]. *)
Definition since (w w' : World) : list Effect := drop (length (log w)) (log w').

(** The servers that were asked to listen. *)
Fixpoint listens (l : list Effect) : list nat :=
  match l with
  | [] => []
  | EServerListen srv _ :: rest => srv :: listens rest
  | _ :: rest => listens rest
  end.

(** The sets of sockets hold exactly the connections whose host
    pipeline is in flight, each once; the handles involved were
    allocated. *)
Definition sockets_live (w : World) : Prop :=
  NoDup (host_ends w) /\
  (forall srv s, CbHostEnd srv s ∈ host_ends w ->
     srv < nextId w /\ s < nextId w /\ s ∈ sockets_of srv w) /\
  (forall srv s, s ∈ sockets_of srv w -> CbHostEnd srv s ∈ host_ends w) /\
  (forall srv, srv ∈ listens (log w) -> srv < nextId w).

(** The call that closes a resource. *)
Definition closing_call (r : Resource) : Effect :=
  match r with
  | RDb db => EDbClose db
  | RServer srv => EServerClose srv
  end.

(** The resource a pending callback of the election works on. *)
Definition resource_of (cb : Callback) : option Resource :=
  match cb with
  | CbDbOpen _ db | CbUnlink db => Some (RDb db)
  | CbListen srv => Some (RServer srv)
  | _ => None
  end.

(** Before a server is created there is no forwarding target and no
    server whose errors are listened to. *)
Definition unpromoted (w : World) : Prop :=
  count is_create_server w = 0 ->
  forwardTo w = None /\ forall srv, srv ∉ errorL w.

(** While the facade is open, what the election works on, what the
    facade forwards to and the server it listens to are attached. *)
Definition attached (w : World) : Prop :=
  status w = Open ->
  (forall cb r, cb ∈ tasks w -> resource_of cb = Some r -> r ∈ resources w) /\
  (forall db, forwardTo w = Some db -> RDb db ∈ resources w) /\
  (forall srv, srv ∈ errorL w -> RServer srv ∈ resources w).

(** ** Concrete scenarios *)

Module Scenario.

Definition econnrefused : Error :=
  mkError "connect ECONNREFUSED" (Some "ECONNREFUSED") None.
Definition enoent : Error := mkError "no such file" (Some "ENOENT") None.
Definition eacces : Error := mkError "permission denied" (Some "EACCES") None.
Definition eaddrinuse : Error := mkError "address in use" (Some "EADDRINUSE") None.
Definition emfile : Error := mkError "accept EMFILE" (Some "EMFILE") None.
Definition locked : Error :=
  mkError "Database failed to open" (Some "LEVEL_DATABASE_NOT_OPEN")
    (Some (mkError "lock held by another process" (Some "LEVEL_LOCKED") None)).
Definition corrupt : Error :=
  mkError "Database failed to open" (Some "LEVEL_DATABASE_NOT_OPEN")
    (Some (mkError "corruption" (Some "LEVEL_CORRUPTION") None)).
Definition ereset : Error := mkError "read ECONNRESET" (Some "ECONNRESET") None.

Definition no_listeners : Signal -> list UserAction := fun _ => [].

(** A process started in [/home/u] opens the store [db]. *)
Definition fresh_facade : World :=
  RaveLevel Posix (Path.resolve "/home/u") "db" no_listeners.

(** The facade is open and its first follower connection is pending. *)
Definition following : World := run [EvDone CbOpened None] fresh_facade.

(** Nobody listens: the connection fails and the engine is being opened. *)
Definition opening_engine : World :=
  run [EvDone (CbFollowerEnd 0) (Some econnrefused)] following.

(** The lock is won and the stale socket file is being removed. *)
Definition unlinking : World :=
  run [EvDone (CbDbOpen 0 1) None] opening_engine.

(** The server was created and asked to listen. *)
Definition binding : World :=
  run [EvDone (CbUnlink 1) (Some enoent)] unlinking.

(** The server listens and nothing was outstanding: leader. *)
Definition leading : World := run [EvDone (CbListen 2) None] binding.

(** The same promotion with one operation issued before it and one
    issued between the switch to direct mode and the listen callback. *)
Definition promotion_with_pending : list Event :=
  [ EvDone CbOpened None;
    EvUser (UIssue (Put "a" "1"));
    EvDone (CbFollowerEnd 0) (Some econnrefused);
    EvDone (CbDbOpen 0 1) None;
    EvDone (CbUnlink 1) (Some enoent);
    EvUser (UIssue (Put "a" "2"));
    EvDone (CbListen 2) None ].

Definition flushing : World := run promotion_with_pending fresh_facade.

(** The loopback connection breaks before the outstanding request is
    answered. *)
Definition drain_failed : World :=
  run [EvDone (CbLoopEnd 3) (Some ereset)] flushing.

(** The server then reports an error of its own, and the owner goes on
    using the facade. *)
Definition after_drain_failure : World :=
  run [EvServerError 2 emfile; EvUser (UIssue (Del "a"))] drain_failed.

(** The events of a promotion up to the creation of the server, and
    events that may follow it. *)
Definition to_binding : list Event :=
  [ EvDone CbOpened None;
    EvDone (CbFollowerEnd 0) (Some econnrefused);
    EvDone (CbDbOpen 0 1) None;
    EvDone (CbUnlink 1) (Some enoent) ].

Definition after_binding : list Event :=
  [ EvDone (CbListen 2) None; EvAccept 2; EvServerError 2 emfile;
    EvDone (CbHostEnd 2 3) None; EvUser UClose ].

(** The store is locked by a process that does not listen: three rounds
    of connection failure, lock contention and timer. *)
Definition locked_out : list Event :=
  [ EvDone CbOpened None;
    EvDone (CbFollowerEnd 0) (Some econnrefused);
    EvDone (CbDbOpen 0 1) (Some locked);
    EvDone CbTimer None;
    EvDone (CbFollowerEnd 2) (Some econnrefused);
    EvDone (CbDbOpen 2 3) (Some locked);
    EvDone CbTimer None;
    EvDone (CbFollowerEnd 4) (Some econnrefused);
    EvDone (CbDbOpen 4 5) (Some locked) ].

(** The owner closes a facade whose engine open is still in flight. *)
Definition closing_while_opening : World :=
  run [EvUser UClose] opening_engine.

End Scenario.

(** ** Symbolic execution *)

Lemma exec_bind {A B} (m : M A) (k : A -> M B) w :
  exec (bind m k) w = exec (k (fst (m w))) (exec m w).
Proof. unfold exec, bind. now destruct (m w). Qed.

Lemma exec_gets {A} (f : World -> A) w : exec (gets f) w = w.
Proof. reflexivity. Qed.

Lemma fst_gets {A} (f : World -> A) w : fst (gets f w) = f w.
Proof. reflexivity. Qed.

Lemma exec_ret {A} (a : A) w : exec (ret a) w = w.
Proof. reflexivity. Qed.

Lemma exec_modify f w : exec (modify f) w = f w.
Proof. reflexivity. Qed.

(** Run a callback on a world given by its fields: unfold the
    computations and the field updates and reduce the projections.
    [emit] and the loops stay folded. *)
Ltac mred :=
  cbv beta iota delta
    [exec bind ret gets modify call fresh later fst snd
     net_connect socket_once_connect socket_removeListener_connect
     new_ClassicLevel db_open setTimeout fs_unlink net_createServer
     server_on_error server_removeListener_error server_listen server_close
     attachResource detachResource forward once_flush removeListener_flush
     kDestroy kConnect onconnect onDbOpen onFollowerEnd onUnlink onAccept
     onHostEnd onLoopEnd onListen invoke issue isFlushed
     set_status set_forwardTo set_resources set_requests set_store
     set_connected set_connectL set_flushL set_errorL set_sockets set_tasks
     set_log set_nextId
     status kLocation kSocketPath forwardTo resources requests store
     connected connectL flushL errorL sockets tasks log nextId owner] in *;
  cbn [is_open negb andb orb] in *.

Lemma forEach_destroy (socks : list nat) w :
  exec (forEach socks (fun sock => call (ESockDestroy sock))) w
  = set_log (log w ++ map ESockDestroy socks) w.
Proof.
  revert w. induction socks as [|s socks IH]; intros w.
  - destruct w. mred. cbn. now rewrite app_nil_r.
  - cbn [forEach]. rewrite exec_bind, IH. destruct w. mred. cbn.
    now rewrite <- app_assoc.
Qed.

Lemma serverClose_eq srv cb w :
  exec (serverClose srv cb) w
  = set_tasks (tasks w ++ [cb])
      (set_log (log w ++ map ESockDestroy (default [] (sockets w !! srv))
                ++ [EServerClose srv])
         (set_errorL (set_delete srv (errorL w)) w)).
Proof.
  unfold serverClose. rewrite exec_bind. cbn [gets fst].
  rewrite exec_bind, forEach_destroy.
  destruct w. mred. cbn. now rewrite <- app_assoc.
Qed.

(** ** The frame of the owner's actions *)

Lemma owner_effect_mono rs rs' e :
  (rs = rs' \/ rs = []) -> owner_effect rs e -> owner_effect rs' e.
Proof.
  intros [-> | ->]; [easy|]. destruct e; cbn; easy.
Qed.

Lemma owner_frame_refl w : owner_frame w w.
Proof.
  split; auto.
  - exists []. split; [now rewrite app_nil_r | constructor].
  - exists []. split; [now rewrite app_nil_r | constructor].
Qed.

Lemma owner_frame_trans a b c :
  owner_frame a b -> owner_frame b c -> owner_frame a c.
Proof.
  intros [] []. split; try congruence; try (intuition congruence).
  - auto.
  - destruct of_tasks0 as (t1 & E1 & F1), of_tasks1 as (t2 & E2 & F2).
    exists (t1 ++ t2). split; [now rewrite E2, E1, app_assoc | now apply Forall_app].
  - destruct of_log0 as (l1 & E1 & F1), of_log1 as (l2 & E2 & F2).
    exists (l1 ++ l2). split; [now rewrite E2, E1, app_assoc |].
    apply Forall_app. split; [easy|].
    eapply Forall_impl; [exact F2|]. intros e. now apply owner_effect_mono.
Qed.

Lemma set_delete_subset x (l : list nat) y : y ∈ set_delete x l -> y ∈ l.
Proof. unfold set_delete. rewrite list_elem_of_filter. tauto. Qed.

Lemma set_delete_not_in x (l : list nat) : x ∉ set_delete x l.
Proof. unfold set_delete. rewrite list_elem_of_filter. tauto. Qed.

Lemma Forall_destroy rs (socks : list nat) :
  Forall (owner_effect rs) (map ESockDestroy socks).
Proof. induction socks; constructor; cbn; auto. Qed.

Lemma serverClose_frame srv r w :
  owner_frame w (exec (serverClose srv (CbResourceClosed r)) w).
Proof.
  rewrite serverClose_eq. destruct w. mred. split; cbn; auto.
  - intros s. apply set_delete_subset.
  - eexists. split; [reflexivity|]. repeat constructor.
  - eexists. split; [reflexivity|].
    apply Forall_app. split; [apply Forall_destroy | repeat constructor].
Qed.

Lemma closeResource_frame r w :
  r ∈ resources w ->
  owner_frame w (exec (closeResource r) w) /\
  resources (exec (closeResource r) w) = resources w.
Proof.
  intros Hr. destruct r as [db|srv]; cbn [closeResource].
  - destruct w. mred. split; [|reflexivity]. split; cbn; auto.
    + eexists. split; [reflexivity|]. repeat constructor.
    + eexists. split; [reflexivity|]. repeat constructor. exact Hr.
  - split; [apply serverClose_frame|]. rewrite serverClose_eq. now destruct w.
Qed.

Lemma closeAll_frame rs w :
  (forall r, r ∈ rs -> r ∈ resources w) ->
  owner_frame w (exec (forEach rs closeResource) w).
Proof.
  revert w. induction rs as [|r rs IH]; intros w Hrs.
  - apply owner_frame_refl.
  - cbn [forEach]. rewrite exec_bind.
    destruct (closeResource_frame r w) as [F E].
    { apply Hrs. now left. }
    eapply owner_frame_trans; [exact F|]. apply IH.
    intros r' Hr'. rewrite E. apply Hrs. now right.
Qed.

Lemma close_frame w : owner_frame w (exec close w).
Proof.
  unfold close. rewrite exec_bind. cbn [gets fst exec snd].
  destruct (is_open (status w)) eqn:Hst; [|apply owner_frame_refl].
  rewrite !exec_bind.
  set (w1 := exec (modify (set_status Closing)) w).
  cbn [gets fst]. change (exec (gets resources) w1) with w1.
  set (w2 := exec (forEach (resources w1) closeResource) w1).
  assert (F1 : owner_frame w w1).
  { subst w1. destruct w. mred. destruct status0; try discriminate.
    split; cbn; auto.
    - exists []. now rewrite app_nil_r.
    - exists []. now rewrite app_nil_r. }
  assert (F2 : owner_frame w1 w2) by (apply closeAll_frame; auto).
  eapply owner_frame_trans; [exact F1|].
  eapply owner_frame_trans; [exact F2|].
  clearbody w2. clear. destruct w2. mred. split; cbn; auto.
  - eexists. split; [reflexivity|]. repeat constructor.
  - exists []. now rewrite app_nil_r.
Qed.

Lemma issue_frame op w : owner_frame w (exec (issue op) w).
Proof.
  destruct w. mred. destruct status0; try apply owner_frame_refl.
  destruct forwardTo0; split; cbn; auto;
    try (exists []; now rewrite app_nil_r).
  eexists. split; [reflexivity|]. repeat constructor.
Qed.

Lemma user_frame a w : owner_frame w (exec (user a) w).
Proof. destruct a; [apply close_frame | apply issue_frame]. Qed.

Lemma users_frame acts w : owner_frame w (exec (forEach acts user) w).
Proof.
  revert w. induction acts as [|a acts IH]; intros w.
  - apply owner_frame_refl.
  - cbn [forEach]. rewrite exec_bind.
    eapply owner_frame_trans; [apply user_frame | apply IH].
Qed.

Lemma flush_listeners_frame w :
  owner_frame w
    (exec (ls <- gets flushL ;; modify (set_flushL []) ;; forEach ls onflush) w).
Proof.
  rewrite !exec_bind. cbn [gets fst]. unfold onflush.
  rewrite forEach_destroy. destruct w. mred. split; cbn; auto.
  - exists []. now rewrite app_nil_r.
  - eexists. split; [reflexivity|]. apply Forall_destroy.
Qed.

(** [emit] logs the signal and then only runs listeners. *)
Lemma emit_frame sig w :
  owner_frame (exec (call (EEmit sig)) w) (exec (emit sig) w).
Proof.
  unfold emit. rewrite exec_bind.
  set (w1 := exec (call (EEmit sig)) w). rewrite exec_bind.
  set (w2 := exec _ w1).
  assert (F : owner_frame w1 w2).
  { subst w2. destruct sig; try apply owner_frame_refl.
    apply flush_listeners_frame. }
  rewrite exec_bind. cbn [gets fst]. change (exec (gets _) w2) with w2.
  eapply owner_frame_trans; [exact F | apply users_frame].
Qed.

(** ** Facts about the observations *)

Lemma errors_app l1 l2 : errors (l1 ++ l2) = errors l1 ++ errors l2.
Proof.
  induction l1 as [|e l1 IH]; [reflexivity|].
  destruct e; cbn; try exact IH. destruct sig; cbn; now rewrite ?IH.
Qed.

Lemma errors_owner rs l : Forall (owner_effect rs) l -> errors l = [].
Proof.
  induction 1 as [|e l He _ IH]; [reflexivity|].
  destruct e; cbn in *; try exact IH; contradiction.
Qed.

Lemma progress_owner rs l : Forall (owner_effect rs) l -> List.filter progress l = [].
Proof.
  induction 1 as [|e l He _ IH]; [reflexivity|].
  destruct e; cbn in *; try exact IH; contradiction.
Qed.

Lemma closes_app db l1 l2 : closes db (l1 ++ l2) = closes db l1 + closes db l2.
Proof.
  induction l1 as [|e l1 IH]; [reflexivity|].
  destruct e; cbn; try exact IH. rewrite IH. lia.
Qed.

Lemma closes_owner db rs l :
  RDb db ∉ rs -> Forall (owner_effect rs) l -> closes db l = 0.
Proof.
  intros Hdb. induction 1 as [|e l He _ IH]; [reflexivity|].
  destruct e; cbn in *; try exact IH; try contradiction.
  destruct (Nat.eqb_spec db0 db) as [->|]; [contradiction | exact IH].
Qed.

Lemma not_open st : st <> Open -> is_open st = false.
Proof. now destruct st. Qed.

Lemma kDestroy_closed err w : is_open (status w) = false -> exec (kDestroy err) w = w.
Proof. intros H. destruct w. mred. now rewrite H. Qed.

Lemma kDestroy_open err w :
  status w = Open -> exec (kDestroy err) w = exec (emit (SigError err)) w.
Proof. intros H. destruct w. mred. now rewrite H. Qed.

Lemma kConnect_closed w : is_open (status w) = false -> exec kConnect w = w.
Proof. intros H. destruct w. mred. now rewrite H. Qed.

Lemma emit_log sig w :
  exists l, log (exec (emit sig) w) = log w ++ EEmit sig :: l /\
            Forall (owner_effect (resources w)) l.
Proof.
  destruct (of_log _ _ (emit_frame sig w)) as (l & E & F).
  exists l. rewrite E. destruct w. mred.
  split; [now rewrite <- app_assoc | exact F].
Qed.

Lemma emit_errors sig w :
  errors (log (exec (emit sig) w))
  = errors (log w) ++ match sig with SigError e => [e] | _ => [] end.
Proof.
  destruct (emit_log sig w) as (l & -> & F).
  rewrite errors_app. f_equal. destruct sig; cbn; now rewrite (errors_owner _ _ F).
Qed.

(** What [emit] leaves alone. *)
Lemma emit_same sig w :
  let w' := exec (emit sig) w in
  forwardTo w' = forwardTo w /\ sockets w' = sockets w /\
  nextId w' = nextId w /\ kSocketPath w' = kSocketPath w /\
  (resources w' = resources w \/ resources w' = []) /\
  (status w' = status w \/ status w = Open /\ status w' = Closing) /\
  exists t, tasks w' = tasks w ++ t /\ Forall closing_task t.
Proof.
  destruct (emit_frame sig w) as [].
  destruct w; mred. tauto.
Qed.

(** ** Direct mode comes before listening and flushing *)

Lemma elem_of_remove_task cb cb' l : cb' ∈ remove_task cb l -> cb' ∈ l.
Proof.
  induction l as [|c l IH]; cbn [remove_task]; [easy|].
  destruct (bool_decide (c = cb)).
  - intros H. now right.
  - rewrite !elem_of_cons. intuition.
Qed.

Lemma promoted_not_closing t cb : Forall closing_task t -> promoted cb -> cb ∉ t.
Proof.
  intros F P H. rewrite Forall_forall in F. specialize (F cb H).
  destruct cb; cbn in *; contradiction.
Qed.

(** Replace the world after an [emit] by a fresh one about which only
    the frame of [emit] is known. *)
Ltac emit_facts :=
  repeat match goal with
  | |- context [emit ?sig ?W] =>
      let H := fresh "HW" in
      let L := fresh "HL" in
      let W' := fresh "W" in
      pose proof (emit_same sig W) as H;
      pose proof (emit_log sig W) as L;
      unfold exec in H, L;
      destruct (emit sig W) as [[] W'];
      destruct W';
      mred;
      destruct H as (? & ? & ? & ? & ? & ? & ? & ? & ?);
      destruct L as (? & ? & ?)
  end.

(** Case analysis on every test the callback makes. *)
Ltac split_all :=
  repeat match goal with
  | |- context [match ?x with _ => _ end] =>
      lazymatch x with
      | context [match _ with _ => _ end] => fail
      | context [emit] => fail
      | _ => destruct x eqn:?; mred
      end
  end.

(** Where a callback found in the pending ones can come from. *)
Ltac in_tasks :=
  repeat match goal with
  | H : _ ∈ _ ++ _ |- _ => apply elem_of_app in H as [H|H]
  | H : _ ∈ _ :: _ |- _ => apply elem_of_cons in H as [H|H]
  | H : _ ∈ [] |- _ => apply elem_of_nil in H; contradiction
  | H : _ ∈ remove_task _ _ |- _ => apply elem_of_remove_task in H
  | H : ?cb ∈ ?t, F : Forall closing_task ?t, P : promoted ?cb |- _ =>
      exfalso; exact (promoted_not_closing t cb F P H)
  | H : ?cb = _, P : promoted ?cb |- _ => subst cb; cbn in P; contradiction
  end.

(** The invariant is kept by every step of the event loop: a promoted
    callback is only ever registered after [forward], and nothing
    resets the target. *)
Lemma step_direct_if_promoted ev w :
  direct_if_promoted w -> direct_if_promoted (step ev w).
Proof.
  intros Inv. destruct ev as [cb err|s|srv e|srv|s|a]; cbn [step].
  - destruct (bool_decide (cb ∈ tasks w)) eqn:Hin; [|exact Inv].
    apply bool_decide_eq_true in Hin.
    intros cb' P. destruct w. unfold direct_if_promoted in Inv.
    destruct cb; mred; repeat (split_all; emit_facts); subst; intros Hc; in_tasks.
    all: try (eexists; reflexivity).
    all: try (eapply Inv; eassumption).
    all: try (eapply Inv; [|exact Hin]; exact I).
  - destruct (bool_decide _); [|exact Inv].
    intros cb' P. destruct w. unfold direct_if_promoted in Inv.
    mred. apply Inv, P.
  - destruct (bool_decide _); [|exact Inv].
    intros cb' P. destruct w. unfold direct_if_promoted in Inv.
    mred; repeat (split_all; emit_facts); subst; intros Hc; in_tasks.
    all: try (eapply Inv; eassumption).
  - destruct (accepting srv w); [|exact Inv].
    intros cb' P. destruct w. unfold direct_if_promoted in Inv.
    mred. intros Hc; in_tasks. eapply Inv; eassumption.
  - destruct (stream_alive s w); [|exact Inv].
    intros cb' P. destruct w. unfold direct_if_promoted in Inv.
    unfold ack.
    mred; repeat (split_all; emit_facts); subst; intros Hc; in_tasks.
    all: try (eapply Inv; eassumption).
  - intros cb' P.
    destruct (user_frame a w) as [].
    destruct of_tasks0 as (t & Et & Ft).
    rewrite Et, of_forwardTo0. intros Hc. in_tasks. eapply Inv; eassumption.
Qed.

Lemma run_app evs1 evs2 w : run (evs1 ++ evs2) w = run evs2 (run evs1 w).
Proof. apply fold_left_app. Qed.

Lemma run_direct_if_promoted evs w :
  direct_if_promoted w -> direct_if_promoted (run evs w).
Proof.
  revert w. induction evs as [|ev evs IH]; intros w Inv; [exact Inv|].
  apply IH, step_direct_if_promoted, Inv.
Qed.

Lemma RaveLevel_direct_if_promoted platform resolve location listeners :
  direct_if_promoted (RaveLevel platform resolve location listeners).
Proof.
  intros cb P Hc. cbn in Hc. in_tasks.
Qed.

(** ** After the close nothing moves forward *)

Ltac fin_progress :=
  repeat rewrite List.filter_app;
  cbn [List.filter progress];
  repeat match goal with
  | F : Forall (owner_effect _) ?l |- _ => rewrite (progress_owner _ l F)
  end;
  rewrite ?app_nil_r; try reflexivity.

Lemma step_shut ev w :
  shut w ->
  shut (step ev w) /\
  List.filter progress (log (step ev w)) = List.filter progress (log w).
Proof.
  intros Hs. destruct ev as [cb err|s|srv e|srv|s|a]; cbn [step].
  - destruct (bool_decide (cb ∈ tasks w)); [|now split].
    destruct w. unfold shut in *. mred.
    destruct Hs; subst; destruct cb; mred; repeat (split_all; emit_facts); subst;
      (split; [auto|fin_progress]).
  - destruct (bool_decide _); [|now split].
    destruct w. unfold shut in *. mred. now split.
  - destruct (bool_decide _); [|now split].
    destruct w. unfold shut in *. mred.
    destruct Hs; subst; mred; (split; [auto|reflexivity]).
  - destruct (accepting srv w); [|now split].
    destruct w. unfold shut in *. mred. split; [auto|fin_progress].
  - destruct (stream_alive s w); [|now split].
    destruct w. unfold shut in *. unfold ack. mred.
    destruct Hs; subst; repeat (split_all; emit_facts); subst;
      (split; [intuition (auto; congruence)|fin_progress]).
  - destruct (user_frame a w) as [].
    destruct of_log0 as (l & El & Fl). unfold shut in *. split.
    + intuition congruence.
    + rewrite El. fin_progress.
Qed.

Lemma run_shut evs w :
  shut w ->
  shut (run evs w) /\
  List.filter progress (log (run evs w)) = List.filter progress (log w).
Proof.
  revert w. induction evs as [|ev evs IH]; intros w Hs; [now split|].
  destruct (step_shut ev w Hs) as [Hs' E].
  destruct (IH _ Hs') as [Hs'' E']. split; [exact Hs''|].
  change (run (ev :: evs) w) with (run evs (step ev w)). now rewrite E'.
Qed.

(** ** A detached handle is never closed *)

Lemma not_in_filter_ne (db : nat) (r : Resource) (rs : list Resource) :
  RDb db ∉ rs -> RDb db ∉ filter (fun r' => r' ≠ r) rs.
Proof. rewrite list_elem_of_filter. tauto. Qed.

Lemma not_in_filter_self (r : Resource) (rs : list Resource) :
  r ∉ filter (fun r' => r' ≠ r) rs.
Proof. rewrite list_elem_of_filter. tauto. Qed.

Ltac not_attached :=
  repeat match goal with
  | H : ?rs = _ \/ ?rs = [] |- _ => destruct H; subst rs
  end;
  repeat first
    [ assumption
    | apply not_in_filter_self
    | apply not_elem_of_nil
    | apply not_in_filter_ne
    | apply not_elem_of_app; split
    | apply not_elem_of_cons; split;
      [ let E := fresh in intros E; first [discriminate E | injection E; lia] | ] ].

Ltac fin_closes :=
  repeat rewrite closes_app;
  cbn [closes];
  repeat match goal with
  | F : Forall (owner_effect ?rs) ?l |- _ =>
      rewrite (closes_owner _ rs l); [|not_attached|exact F]
  end;
  try lia.

Lemma step_detached db ev w :
  detached db w ->
  detached db (step ev w) /\ closes db (log (step ev w)) = closes db (log w).
Proof.
  intros [Hid Hrs]. destruct ev as [cb err|s|srv e|srv|s|a]; cbn [step].
  - destruct (bool_decide (cb ∈ tasks w)); [|now split].
    destruct w. unfold detached in *. mred.
    destruct cb; mred; repeat (split_all; emit_facts); subst;
      (split; [split; [lia|not_attached]|fin_closes]).
  - destruct (bool_decide _); [|now split].
    destruct w. unfold detached in *. mred. now split.
  - destruct (bool_decide _); [|now split].
    destruct w. unfold detached in *. mred.
    repeat (split_all; emit_facts); subst;
      (split; [split; [lia|not_attached]|fin_closes]).
  - destruct (accepting srv w); [|now split].
    destruct w. unfold detached in *. mred.
    split; [split; [lia|not_attached]|fin_closes].
  - destruct (stream_alive s w); [|now split].
    destruct w. unfold detached in *. unfold ack. mred.
    repeat (split_all; emit_facts); subst;
      (split; [split; [lia|not_attached]|fin_closes]).
  - destruct (user_frame a w) as [].
    destruct of_log0 as (l & El & Fl). unfold detached. rewrite of_nextId0, El.
    split; [split; [lia|]|fin_closes].
    destruct of_resources0 as [->| ->]; [exact Hrs|apply not_elem_of_nil].
Qed.

Lemma run_detached db evs w :
  detached db w ->
  detached db (run evs w) /\ closes db (log (run evs w)) = closes db (log w).
Proof.
  revert w. induction evs as [|ev evs IH]; intros w Hd; [now split|].
  destruct (step_detached db ev w Hd) as [Hd' E].
  destruct (IH _ Hd') as [Hd'' E']. split; [exact Hd''|].
  change (run (ev :: evs) w) with (run evs (step ev w)). now rewrite E'.
Qed.

(** ** One address per facade *)

Lemma addressed_owner path rs l :
  Forall (owner_effect rs) l -> Forall (addressed path) l.
Proof.
  intros F. eapply Forall_impl; [exact F|].
  intros e He. destruct e; cbn in *; auto; contradiction.
Qed.

Ltac addressed_one := cbn [addressed]; first [exact I | reflexivity].

Ltac fin_address :=
  repeat match goal with
  | |- Forall _ (_ ++ _) => apply Forall_app; split
  | |- Forall _ [] => apply List.Forall_nil
  | |- Forall (addressed _) (_ :: _) => apply List.Forall_cons; [addressed_one|]
  | |- Forall (addressed _) _ =>
      first [assumption | eapply addressed_owner; eassumption]
  end.

Lemma step_one_address ev w :
  one_address w ->
  one_address (step ev w) /\ kSocketPath (step ev w) = kSocketPath w.
Proof.
  intros Inv. destruct ev as [cb err|s|srv e|srv|s|a]; cbn [step].
  - destruct (bool_decide (cb ∈ tasks w)); [|now split].
    destruct w. unfold one_address in *. mred.
    destruct cb; mred; repeat (split_all; emit_facts); subst;
      (split; [fin_address|reflexivity]).
  - destruct (bool_decide _); [|now split].
    destruct w. unfold one_address in *. mred. now split.
  - destruct (bool_decide _); [|now split].
    destruct w. unfold one_address in *. mred.
    repeat (split_all; emit_facts); subst; (split; [fin_address|reflexivity]).
  - destruct (accepting srv w); [|now split].
    destruct w. unfold one_address in *. mred. split; [fin_address|reflexivity].
  - destruct (stream_alive s w); [|now split].
    destruct w. unfold one_address in *. unfold ack. mred.
    repeat (split_all; emit_facts); subst; (split; [fin_address|reflexivity]).
  - destruct (user_frame a w) as [].
    destruct of_log0 as (l & El & Fl). unfold one_address in *.
    rewrite of_socketPath0, El. split; [fin_address|reflexivity].
Qed.

Lemma run_one_address evs w :
  one_address w ->
  one_address (run evs w) /\ kSocketPath (run evs w) = kSocketPath w.
Proof.
  revert w. induction evs as [|ev evs IH]; intros w Inv; [now split|].
  destruct (step_one_address ev w Inv) as [Inv' E].
  destruct (IH _ Inv') as [Inv'' E']. split; [exact Inv''|].
  change (run (ev :: evs) w) with (run evs (step ev w)). congruence.
Qed.

(** ** Rendezvous address *)

Lemma RaveLevel_one_address platform resolve location listeners :
  one_address (RaveLevel platform resolve location listeners).
Proof. apply List.Forall_nil. Qed.

(** C8: the channel address of a facade is a function of the resolved
    location and the platform only.  Two facades whose location strings
    resolve to the same path have the same address on either platform,
    whatever their working directories and listeners, and in all their
    executions every connect, unlink and listen names that one
    address. *)
Theorem same_location_same_address (platform : Platform)
    (resolve1 resolve2 : string -> string) (location1 location2 : string)
    (listeners1 listeners2 : Signal -> list UserAction)
    (evs1 evs2 : list Event) :
  resolve1 location1 = resolve2 location2 ->
  let address := socketPath platform (resolve1 location1) in
  let w1 := run evs1 (RaveLevel platform resolve1 location1 listeners1) in
  let w2 := run evs2 (RaveLevel platform resolve2 location2 listeners2) in
  kSocketPath w1 = address /\ kSocketPath w2 = address /\
  Forall (addressed address) (log w1) /\ Forall (addressed address) (log w2).
Proof.
  intros H address w1 w2.
  destruct (run_one_address evs1 _
              (RaveLevel_one_address platform resolve1 location1 listeners1))
    as [A1 E1].
  destruct (run_one_address evs2 _
              (RaveLevel_one_address platform resolve2 location2 listeners2))
    as [A2 E2].
  fold w1 in A1, E1. fold w2 in A2, E2. unfold one_address in A1, A2.
  assert (K1 : kSocketPath w1 = address) by (rewrite E1; reflexivity).
  assert (K2 : kSocketPath w2 = address)
    by (rewrite E2; subst address; cbn; now rewrite H).
  rewrite K1 in A1. rewrite K2 in A2. auto.
Qed.

Lemma same_location_same_address_witness :
  Path.resolve "/home/u" "db" = Path.resolve "/home/u/db/cache" "../../db/./" /\
  kSocketPath (run Scenario.promotion_with_pending
                 (RaveLevel Posix (Path.resolve "/home/u") "db" Scenario.no_listeners))
  = "/home/u/db/rave-level.sock" /\
  kSocketPath (run [EvDone CbOpened None]
                 (RaveLevel Posix (Path.resolve "/home/u/db/cache") "../../db/./"
                    Scenario.no_listeners))
  = "/home/u/db/rave-level.sock".
Proof.
  assert (H : Path.resolve "/home/u" "db"
              = Path.resolve "/home/u/db/cache" "../../db/./") by reflexivity.
  split; [exact H|].
  pose proof (same_location_same_address Posix _ _ "db" "../../db/./"
                Scenario.no_listeners Scenario.no_listeners
                Scenario.promotion_with_pending [EvDone CbOpened None] H) as T.
  exact (conj (proj1 T) (proj1 (proj2 T))).
Defined.

(** ** Cancellation *)

(** C4: when the status is not open, [kConnect] leaves the world
    untouched, and each callback of the election and the promotion
    stops at its status check: the follower pipeline callback only
    drops its connect listener, the callbacks of a successful engine
    open and of the unlink do nothing, the listen callback only unrefs
    the server, the loopback callback only drops its flush listener.  A
    failed engine open detaches the handle and at most arms the retry
    timer.  Once the facade is closing or closed, no sequence of events
    adds a call that moves the election or the promotion forward, and
    the status never becomes open again. *)
Theorem closing_abandons_election (w : World) (evs : list Event) :
  status w <> Open ->
  exec kConnect w = w /\
  (forall socket,
     exec (onFollowerEnd socket) w = exec (socket_removeListener_connect socket) w) /\
  (forall socket db, exec (onDbOpen socket db None) w = w) /\
  (forall socket db e,
     log (exec (onDbOpen socket db (Some e)) w)
     = log w ++ EDetach (RDb db) ::
         (if is_level_locked e && negb (bool_decide (socket ∈ connected w))
          then [ESetTimeout 100] else [])) /\
  (forall db err, exec (onUnlink db err) w = w) /\
  (forall srv, exec (onListen srv) w = exec (call (EServerUnref srv)) w) /\
  (forall sock err, exec (onLoopEnd sock err) w = exec (removeListener_flush sock) w) /\
  (status w <> Opening ->
     List.filter progress (log (run evs w)) = List.filter progress (log w) /\
     status (run evs w) <> Open).
Proof.
  intros Hst. repeat split.
  - apply kConnect_closed, not_open, Hst.
  - intros socket. destruct w. mred. destruct status0; try reflexivity.
    now contradiction Hst.
  - intros socket db. destruct w. mred. destruct status0; try reflexivity.
    now contradiction Hst.
  - intros socket db e. destruct w. mred.
    destruct (is_level_locked e); [destruct (bool_decide _)|];
      destruct status0; mred; rewrite <- ?app_assoc; try reflexivity;
      now contradiction Hst.
  - intros db err. destruct w. mred. destruct status0; try reflexivity.
    now contradiction Hst.
  - intros srv. destruct w. mred. destruct status0; try reflexivity.
    now contradiction Hst.
  - intros sock err. destruct w. mred.
    destruct requests0, status0; mred; try reflexivity; now contradiction Hst.
  - apply run_shut. unfold shut. destruct (status w); tauto.
  - assert (Hs : shut w) by (unfold shut; destruct (status w); tauto).
    destruct (run_shut evs w Hs) as [[E|E] _]; rewrite E; discriminate.
Qed.

Lemma closing_abandons_election_witness :
  status Scenario.closing_while_opening <> Open /\
  exec (onDbOpen 0 1 None) Scenario.closing_while_opening
  = Scenario.closing_while_opening.
Proof.
  assert (H : status Scenario.closing_while_opening <> Open)
    by (vm_compute; discriminate).
  split; [exact H|].
  exact (proj1 (proj2 (proj2 (closing_abandons_election _ [] H))) 0 1).
Defined.

(** ** Lock contention *)



(** ** Failed engine open *)

(** C9: when the engine open fails, whatever the error, the handle is
    detached first; the retry, the timer or the destroy routine run on
    the world without it.  From then on the handle is never in the
    registry again and no later event, a close of the facade
    included, asks for its close. *)
Theorem failed_handle_is_detached (w : World) (socket db : nat) (err : Error)
    (evs : list Event) :
  db < nextId w ->
  let w1 := exec (detachResource (RDb db)) w in
  let w' := exec (onDbOpen socket db (Some err)) w in
  w' = exec (if is_level_locked err
             then if bool_decide (socket ∈ connected w)
                  then kConnect else setTimeout CbTimer 100
             else kDestroy err) w1 /\
  log w1 = log w ++ [EDetach (RDb db)] /\
  (RDb db ∉ resources w1) /\
  (RDb db ∉ resources (run evs w')) /\
  closes db (log (run evs w')) = closes db (log w').
Proof.
  intros Hid w1 w'.
  assert (Hd : detached db w').
  { subst w'. destruct w. unfold detached. mred.
    repeat (split_all; emit_facts); subst; (split; [lia|not_attached]). }
  split; [|split; [|split; [|split]]].
  - subst w' w1. destruct w. mred.
    destruct (is_level_locked err); [destruct (bool_decide _)|]; reflexivity.
  - subst w1. now destruct w.
  - subst w1. destruct w. mred. apply not_in_filter_self.
  - apply (run_detached db evs w' Hd).
  - apply (run_detached db evs w' Hd).
Qed.

Lemma failed_handle_is_detached_witness :
  1 < nextId Scenario.opening_engine /\
  closes 1 (log (run [EvUser UClose]
                   (exec (onDbOpen 0 1 (Some Scenario.corrupt)) Scenario.opening_engine)))
  = closes 1 (log (exec (onDbOpen 0 1 (Some Scenario.corrupt)) Scenario.opening_engine)).
Proof.
  assert (H : 1 < nextId Scenario.opening_engine) by (vm_compute; lia).
  split; [exact H|].
  exact (proj2 (proj2 (proj2 (proj2
    (failed_handle_is_detached Scenario.opening_engine 0 1 Scenario.corrupt
       [EvUser UClose] H))))).
Defined.

(** ** Stale artifact *)


(** ** Order of the promotion steps *)

(** C1 does not hold as stated: in the promotion of
    [Scenario.flushing] the switch to direct mode (position 8 of the
    log) precedes [server.listen] (position 9), and the leader signal
    (position 12) precedes the loopback connection of the flush barrier
    (position 13); the operation issued after the switch reaches the
    store before the one issued before the promotion. *)
Lemma promotion_order_counterexample :
  ~ spec_promotion_order 3 (log Scenario.flushing) /\
  index_of is_forward (log Scenario.flushing) = Some 8 /\
  index_of is_listen (log Scenario.flushing) = Some 9 /\
  index_of is_leader (log Scenario.flushing) = Some 12 /\
  index_of (is_connect_of 3) (log Scenario.flushing) = Some 13 /\
  store (run [EvAck 3] Scenario.flushing) = [Put "a" "2"; Put "a" "1"].
Proof.
  split; [|repeat split; vm_compute; reflexivity].
  intros (i & j & k & m & Hi & Hj & Hk & Hm & Hij & Hjk & Hjm).
  vm_compute in Hi, Hj, Hk, Hm.
  injection Hi as <-. injection Hj as <-. injection Hk as <-. lia.
Qed.

(** C1 (amended): after a successful cleanup the leader-elect creates
    the server, attaches it, switches the facade to direct mode and
    only then asks the server to listen.  The listen callback unrefs
    the server and signals [leader]; only after that signal, and only
    if the facade is still open and not flushed, it opens the loopback
    connection of the flush barrier and registers the flush listener.
    An operation issued in direct mode is applied to the store at
    once and does not wait for the outstanding requests.  In every
    execution, while the listen callback or the loopback callback is in
    flight, the facade is already in direct mode. *)
Theorem promotion_switches_then_listens (w : World) (db srv : nat)
    (err : option Error) :
  status w = Open ->
  unlink_fatal err = None ->
  let n := nextId w in
  let w1 := exec (onUnlink db err) w in
  let w2 := exec (emit SigLeader) (exec (call (EServerUnref srv)) w) in
  let w3 := exec (onListen srv) w in
  log w1 = log w ++ [ECreateServer n db; EAttach (RServer n); EForward db;
                     EServerListen n (kSocketPath w)] /\
  forwardTo w1 = Some db /\
  tasks w1 = tasks w ++ [CbListen n] /\
  (exists l, log w2 = log w ++ EServerUnref srv :: EEmit SigLeader :: l /\
             Forall (owner_effect (resources w)) l) /\
  (if is_open (status w2) && negb (isFlushed w2)
   then log w3 = log w2 ++ [ENetConnect (nextId w2) (kSocketPath w2);
                            EGuestPipe (nextId w2)] /\
        tasks w3 = tasks w2 ++ [CbLoopEnd (nextId w2)] /\
        flushL w3 = flushL w2 ++ [nextId w2] /\
        forwardTo w3 = forwardTo w
   else w3 = w2) /\
  (forall op wd target,
     status wd = Open -> forwardTo wd = Some target ->
     store (exec (issue op) wd) = store wd ++ [op] /\
     requests (exec (issue op) wd) = requests wd) /\
  (forall platform resolve location listeners evs,
     direct_if_promoted (run evs (RaveLevel platform resolve location listeners))).
Proof.
  intros Hopen Hok n w1 w2 w3. subst n w1 w2 w3.
  split; [|split; [|split; [|split; [|split; [|split]]]]].
  - destruct w. mred. subst. rewrite Hok. mred.
    split_all; now rewrite <- !app_assoc.
  - destruct w. mred. subst. rewrite Hok. mred.
    split_all; reflexivity.
  - destruct w. mred. subst. rewrite Hok. mred.
    split_all; reflexivity.
  - destruct (emit_log SigLeader (exec (call (EServerUnref srv)) w))
      as (l & El & Fl).
    exists l. rewrite El. destruct w. mred.
    split; [now rewrite <- app_assoc | exact Fl].
  - destruct w. mred. subst. mred.
    emit_facts. subst.
    repeat match goal with
    | |- context [is_open ?s] => is_var s; destruct s; mred
    end;
    split_all; try reflexivity; now rewrite <- ?app_assoc.
  - intros op wd target Hs Hf. clear Hopen. destruct wd. mred. subst. mred.
    now split.
  - intros. apply run_direct_if_promoted, RaveLevel_direct_if_promoted.
Qed.

Lemma promotion_switches_then_listens_witness :
  status Scenario.unlinking = Open /\
  unlink_fatal (Some Scenario.enoent) = None /\
  forwardTo (exec (onUnlink 1 (Some Scenario.enoent)) Scenario.unlinking) = Some 1.
Proof.
  assert (H1 : status Scenario.unlinking = Open) by reflexivity.
  assert (H2 : unlink_fatal (Some Scenario.enoent) = None) by reflexivity.
  split; [exact H1|]. split; [exact H2|].
  exact (proj1 (proj2
    (promotion_switches_then_listens Scenario.unlinking 1 2
       (Some Scenario.enoent) H1 H2))).
Defined.

(** ** Leader server *)

(** C7: the [close] closure destroys the sockets of the active set in
    order, drops the error listener, and then calls [server.close]
    with the callback, which is the last thing it does; an accepted
    socket joins the set and leaves it when its pipeline ends, whatever
    the error of that end, with nothing logged or signalled. *)
Theorem leader_server_lifecycle (w : World) (srv sock : nat) (cb : Callback)
    (err : option Error) :
  let socks := default [] (sockets w !! srv) in
  let wc := exec (serverClose srv cb) w in
  let wa := exec (onAccept srv) w in
  let we := exec (invoke (CbHostEnd srv sock) err) w in
  log wc = log w ++ map ESockDestroy socks ++ [EServerClose srv] /\
  tasks wc = tasks w ++ [cb] /\
  (srv ∉ errorL wc) /\
  sockets wa !! srv = Some (set_add (nextId w) socks) /\
  tasks wa = tasks w ++ [CbHostEnd srv (nextId w)] /\
  sockets we !! srv = Some (set_delete sock socks) /\
  (sock ∉ set_delete sock socks) /\
  log we = log w /\ tasks we = tasks w /\ status we = status w.
Proof.
  intros socks wc wa we. subst wc. rewrite serverClose_eq.
  subst socks wa we. destruct w. mred. cbn.
  repeat split; auto using set_delete_not_in.
  - apply lookup_insert_eq.
  - apply lookup_insert_eq.
Qed.

(** ** Drain failure *)


(** ** Fatal conditions *)

(** C5 does not hold as stated: in [Scenario.drain_failed] the drain
    failure was signalled, yet the status is still open and both
    resources are still attached; in [Scenario.after_drain_failure] a
    later server error reaches the owner as a second error signal, and
    an operation issued afterwards is applied to the store while the
    request that was never drained stays outstanding. *)
Lemma fatal_error_counterexample :
  ~ spec_fatal_is_terminal Scenario.drain_failed /\
  errors (log Scenario.drain_failed)
  = [ModuleError "Did not flush" (Some Scenario.ereset)] /\
  status Scenario.drain_failed = Open /\
  resources Scenario.drain_failed = [RDb 1; RServer 2] /\
  errors (log Scenario.after_drain_failure)
  = [ModuleError "Did not flush" (Some Scenario.ereset); Scenario.emfile] /\
  status Scenario.after_drain_failure = Open /\
  store Scenario.after_drain_failure = [Put "a" "2"; Del "a"] /\
  requests Scenario.after_drain_failure = [Put "a" "1"].
Proof.
  split; [|repeat split; vm_compute; reflexivity].
  intros [_ Hst]. apply Hst; vm_compute; [discriminate | reflexivity].
Qed.

(** C5 (amended): on an open facade each fatal condition (an engine
    open failure other than lock contention, an unlink failure other
    than ENOENT, a server error, a drain failure) runs the destroy
    routine, which signals exactly that one error to the owner; the
    routine starts no new election step: besides the signal, the only
    calls and callbacks that can follow are those of the owner's own
    listeners closing the facade. *)
Theorem fatal_condition_signals_error (w : World) :
  status w = Open ->
  (forall socket db e, is_level_locked e = false ->
     exec (onDbOpen socket db (Some e)) w
     = exec (emit (SigError e)) (exec (detachResource (RDb db)) w)) /\
  (forall db e, code_is "ENOENT" e = false ->
     exec (onUnlink db (Some e)) w = exec (emit (SigError e)) w) /\
  (forall srv e, srv ∈ errorL w ->
     step (EvServerError srv e) w = exec (emit (SigError e)) w) /\
  (forall sock err, isFlushed w = false ->
     exec (onLoopEnd sock err) w
     = exec (emit (SigError (ModuleError "Did not flush" err)))
         (exec (removeListener_flush sock) w)) /\
  (forall e w1,
     let w' := exec (emit (SigError e)) w1 in
     errors (log w') = errors (log w1) ++ [e] /\
     List.filter progress (log w')
     = List.filter progress (log w1) ++ [EEmit (SigError e)] /\
     exists t, tasks w' = tasks w1 ++ t /\ Forall closing_task t).
Proof.
  intros Hopen. split; [|split; [|split; [|split]]].
  - intros socket db e He. destruct w. mred. subst. now rewrite He.
  - intros db e He. destruct w. unfold onUnlink, unlink_fatal. rewrite He.
    mred. now subst.
  - intros srv e Hin. cbn [step]. rewrite bool_decide_eq_true_2 by exact Hin.
    now apply kDestroy_open.
  - intros sock err Hf. destruct w. mred. subst. destruct requests0; [discriminate|].
    reflexivity.
  - intros e w1 w'. subst w'.
    destruct (emit_log (SigError e) w1) as (l & El & Fl).
    destruct (emit_same (SigError e) w1) as (_ & _ & _ & _ & _ & _ & Ht).
    split; [apply emit_errors|]. split; [|exact Ht].
    rewrite El, List.filter_app. cbn [List.filter progress].
    now rewrite (progress_owner _ _ Fl).
Qed.

Lemma fatal_condition_signals_error_witness :
  status Scenario.unlinking = Open /\
  exec (onUnlink 1 (Some Scenario.eacces)) Scenario.unlinking
  = exec (emit (SigError Scenario.eacces)) Scenario.unlinking.
Proof.
  assert (H : status Scenario.unlinking = Open) by reflexivity.
  split; [exact H|].
  exact (proj1 (proj2 (fatal_condition_signals_error Scenario.unlinking H))
           1 Scenario.eacces eq_refl).
Defined.

(** ** Destroy routine *)

(** C10: the destroy routine does nothing unless the status is exactly
    open: in any other status the error it is given is dropped, the
    world is left as it was and no error signal is added. *)
Theorem destroy_ignored_unless_open (w : World) (err : Error) :
  status w <> Open ->
  exec (kDestroy err) w = w /\
  errors (log (exec (kDestroy err) w)) = errors (log w).
Proof.
  intros H. apply not_open in H.
  rewrite (kDestroy_closed err w H). split; reflexivity.
Qed.

Lemma destroy_ignored_unless_open_witness :
  status Scenario.closing_while_opening <> Open /\
  exec (kDestroy Scenario.eaddrinuse) Scenario.closing_while_opening
  = Scenario.closing_while_opening.
Proof.
  assert (H : status Scenario.closing_while_opening <> Open)
    by (vm_compute; discriminate).
  split; [exact H|].
  exact (proj1 (destroy_ignored_unless_open _ Scenario.eaddrinuse H)).
Defined.

(** ** More of the frame of [emit] *)

Lemma user_stays_open a w :
  status (exec (user a) w) = Open ->
  status w = Open /\
  resources (exec (user a) w) = resources w /\
  errorL (exec (user a) w) = errorL w.
Proof.
  destruct a as [|op].
  - cbn [user]. unfold close. rewrite exec_bind, exec_gets, fst_gets.
    destruct (is_open (status w)) eqn:Ho.
    + intros H. exfalso. revert H.
      rewrite !exec_bind. cbn [gets fst].
      set (w1 := exec (modify (set_status Closing)) w).
      change (exec (gets resources) w1) with w1.
      assert (F : owner_frame w1 (exec (forEach (resources w1) closeResource) w1))
        by (apply closeAll_frame; auto).
      assert (S1 : status w1 = Closing) by now destruct w.
      destruct F as [_ _ _ _ _ _ _ _ _ F _ _ _ _]. rewrite S1 in F.
      revert F. generalize (exec (forEach (resources w1) closeResource) w1).
      intros w2 F. destruct w2. mred. intros ->. intuition discriminate.
    + rewrite exec_ret. auto.
  - cbn [user]. destruct w. mred.
    destruct status0; mred; try discriminate; destruct forwardTo0; auto.
Qed.

Lemma users_stay_open acts w :
  status (exec (forEach acts user) w) = Open ->
  status w = Open /\
  resources (exec (forEach acts user) w) = resources w /\
  errorL (exec (forEach acts user) w) = errorL w.
Proof.
  revert w. induction acts as [|a acts IH]; intros w; [now auto|].
  cbn [forEach]. rewrite exec_bind. intros H.
  destruct (IH _ H) as (H1 & H2 & H3).
  destruct (user_stays_open a w H1) as (H4 & H5 & H6).
  repeat split; congruence.
Qed.

Lemma emit_head_eq sig w :
  exec (call (EEmit sig) ;;
        match sig with
        | SigFlush =>
            ls <- gets flushL ;; modify (set_flushL []) ;; forEach ls onflush
        | _ => ret tt
        end) w
  = match sig with
    | SigFlush =>
        set_log ((log w ++ [EEmit sig]) ++ map ESockDestroy (flushL w))
          (set_flushL [] w)
    | _ => set_log (log w ++ [EEmit sig]) w
    end.
Proof.
  rewrite exec_bind. destruct sig; try (destruct w; reflexivity).
  rewrite !exec_bind, fst_gets, exec_gets. unfold onflush.
  rewrite forEach_destroy. now destruct w.
Qed.

Lemma bind_assoc {A B C} (m : M A) (k : A -> M B) (h : B -> M C) w :
  bind m (fun x => bind (k x) h) w = bind (bind m k) h w.
Proof. unfold bind. now destruct (m w). Qed.

Lemma emit_split sig w :
  exec (emit sig) w
  = exec (forEach (owner w sig) user)
      (exec (call (EEmit sig) ;;
             match sig with
             | SigFlush =>
                 ls <- gets flushL ;; modify (set_flushL []) ;; forEach ls onflush
             | _ => ret tt
             end) w).
Proof.
  unfold emit, exec at 1. rewrite bind_assoc.
  change (exec ((call (EEmit sig) ;;
                 match sig with
                 | SigFlush =>
                     ls <- gets flushL ;; modify (set_flushL []) ;; forEach ls onflush
                 | _ => ret tt
                 end) ;;
                acts <- gets (fun w0 => owner w0 sig) ;; forEach acts user) w
          = exec (forEach (owner w sig) user)
              (exec (call (EEmit sig) ;;
                     match sig with
                     | SigFlush =>
                         ls <- gets flushL ;; modify (set_flushL []) ;;
                         forEach ls onflush
                     | _ => ret tt
                     end) w)).
  rewrite exec_bind. rewrite (exec_bind (gets _)), fst_gets, exec_gets.
  f_equal. rewrite emit_head_eq. destruct sig; now destruct w.
Qed.

(** What else [emit] leaves alone; as long as the facade stays open,
    the registry and the error listeners are among it. *)
Lemma emit_more sig w :
  let w' := exec (emit sig) w in
  connected w' = connected w /\ connectL w' = connectL w /\
  (flushL w' = flushL w \/ flushL w' = []) /\
  (forall srv, srv ∈ errorL w' -> srv ∈ errorL w) /\
  (status w' = Open ->
     status w = Open /\ resources w' = resources w /\ errorL w' = errorL w).
Proof.
  intros w'. subst w'. destruct (emit_frame sig w) as [].
  repeat split.
  - rewrite of_connected0. now destruct w.
  - rewrite of_connectL0. now destruct w.
  - destruct of_flushL0 as [->| ->]; [left; now destruct w | now right].
  - intros srv H. apply of_errorL0 in H. now destruct w.
  - revert H. rewrite emit_split. intros H.
    apply users_stay_open in H as (H & _). revert H.
    rewrite emit_head_eq. destruct sig; now destruct w.
  - revert H. rewrite emit_split. intros H.
    apply users_stay_open in H as (_ & -> & _).
    rewrite emit_head_eq. destruct sig; now destruct w.
  - revert H. rewrite emit_split. intros H.
    apply users_stay_open in H as (_ & _ & ->).
    rewrite emit_head_eq. destruct sig; now destruct w.
Qed.

(** As [emit_facts], with the further frame. *)
Ltac emit_facts2 :=
  repeat match goal with
  | |- context [emit ?sig ?W] =>
      let H := fresh "HW" in
      let L := fresh "HL" in
      let N := fresh "HM" in
      let W' := fresh "W" in
      pose proof (emit_same sig W) as H;
      pose proof (emit_log sig W) as L;
      pose proof (emit_more sig W) as N;
      unfold exec in H, L, N;
      destruct (emit sig W) as [[] W'];
      destruct W';
      mred;
      destruct H as (? & ? & ? & ? & ? & ? & ? & ? & ?);
      destruct L as (? & ? & ?);
      destruct N as (? & ? & ? & ? & ?)
  end.

Ltac run_event2 :=
  mred;
  repeat match goal with
  | |- context [is_level_locked ?e] => destruct (is_level_locked e) eqn:?; mred
  end;
  repeat (split_all; emit_facts2); subst.

(** ** Counting callbacks and calls *)

Lemma remove_task_pending (p : Callback -> bool) cb l :
  cb ∈ l ->
  length (List.filter p (remove_task cb l)) + (if p cb then 1 else 0)
  = length (List.filter p l).
Proof.
  induction l as [|c l IH]; intros Hin.
  - now apply elem_of_nil in Hin.
  - cbn [remove_task List.filter]. destruct (bool_decide (c = cb)) eqn:E.
    + apply bool_decide_eq_true in E. subst c.
      destruct (p cb); cbn [length]; lia.
    + apply bool_decide_eq_false in E.
      apply elem_of_cons in Hin as [->|Hin]; [contradiction|].
      specialize (IH Hin). cbn [List.filter].
      destruct (p c); cbn [length]; lia.
Qed.

Lemma filter_closing (p : Callback -> bool) t :
  (forall cb, closing_task cb -> p cb = false) ->
  Forall closing_task t -> List.filter p t = [].
Proof.
  intros Hp. induction 1 as [|cb t Hc _ IH]; [reflexivity|].
  cbn [List.filter]. now rewrite (Hp cb Hc).
Qed.

Lemma filter_owner (p : Effect -> bool) rs l :
  (forall e, owner_effect rs e -> p e = false) ->
  Forall (owner_effect rs) l -> List.filter p l = [].
Proof.
  intros Hp. induction 1 as [|e l He _ IH]; [reflexivity|].
  cbn [List.filter]. now rewrite (Hp e He).
Qed.

(** ** One election at a time *)

(** Bring a goal about numbers of pending callbacks and logged calls
    down to arithmetic. *)
Ltac counts :=
  unfold pending, count in *; mred;
  repeat rewrite List.filter_app in *;
  repeat rewrite List.length_app in *;
  repeat match goal with
  | H : ?cb ∈ ?l |- context [List.filter ?p (remove_task ?cb ?l)] =>
      lazymatch goal with
      | _ : length (List.filter p (remove_task cb l)) + _ = _ |- _ => fail
      | _ => pose proof (remove_task_pending p cb l H)
      end
  end;
  cbn [List.filter length chain electing early is_listen_cb leading_cb
       is_create_server is_new_db is_timeout is_leader leader_only
       election_call] in *;
  repeat match goal with
  | F : Forall closing_task ?t |- context [List.filter ?p ?t] =>
      let Hp := fresh in
      assert (Hp : forall cb, closing_task cb -> p cb = false)
        by (intros [] ?; cbn [closing_task] in *; first [contradiction | reflexivity]);
      rewrite (filter_closing p t Hp F); clear Hp
  | F : Forall (owner_effect ?rs) ?l |- context [List.filter ?p ?l] =>
      let Hp := fresh in
      assert (Hp : forall e, owner_effect rs e -> p e = false)
        by (intros [] ?; cbn [owner_effect] in *; first [contradiction | reflexivity]);
      rewrite (filter_owner p rs l Hp F); clear Hp
  end;
  cbn [List.filter length chain electing early is_listen_cb leading_cb
       is_create_server is_new_db is_timeout is_leader leader_only
       election_call] in *.

Lemma step_one_in_flight ev w :
  pending chain w <= 1 -> pending chain (step ev w) <= 1.
Proof.
  intros Inv. destruct ev as [cb err|s|srv e|srv|s|a]; cbn [step].
  - destruct (bool_decide (cb ∈ tasks w)) eqn:Hin; [|exact Inv].
    apply bool_decide_eq_true in Hin. destruct w.
    destruct cb; mred; repeat (split_all; emit_facts); subst; counts; lia.
  - destruct (bool_decide _); [|exact Inv]. destruct w. counts. lia.
  - destruct (bool_decide _); [|exact Inv]. destruct w.
    mred; repeat (split_all; emit_facts); subst; counts; lia.
  - destruct (accepting srv w); [|exact Inv]. destruct w. counts. lia.
  - destruct (stream_alive s w); [|exact Inv]. destruct w. unfold ack.
    mred; repeat (split_all; emit_facts); subst; counts; lia.
  - destruct (user_frame a w) as []. destruct of_tasks0 as (t & Et & Ft).
    unfold pending in *. rewrite Et. counts. lia.
Qed.

Lemma run_one_in_flight evs w :
  pending chain w <= 1 -> pending chain (run evs w) <= 1.
Proof.
  revert w. induction evs as [|ev evs IH]; intros w Inv; [exact Inv|].
  apply IH, step_one_in_flight, Inv.
Qed.

(** X1: a facade never runs two elections at once: in every execution
    at most one callback of the chain that starts at [kConnect]
    (follower pipeline, engine open, unlink, listen, loopback pipeline,
    retry timer) is in flight. *)
Theorem one_election_in_flight platform resolve location listeners evs :
  pending chain (run evs (RaveLevel platform resolve location listeners)) <= 1.
Proof. apply run_one_in_flight. cbn. lia. Qed.

(** ** Promotion happens once *)

Lemma step_promoted_once ev w : promoted_once w -> promoted_once (step ev w).
Proof.
  intros [I1 I2]. destruct ev as [cb err|s|srv e|srv|s|a]; cbn [step];
    unfold promoted_once.
  - destruct (bool_decide (cb ∈ tasks w)) eqn:Hin; [|now split].
    apply bool_decide_eq_true in Hin. destruct w.
    destruct cb; mred; repeat (split_all; emit_facts); subst; counts; lia.
  - destruct (bool_decide _); [|now split]. destruct w. counts. lia.
  - destruct (bool_decide _); [|now split]. destruct w.
    mred; repeat (split_all; emit_facts); subst; counts; lia.
  - destruct (accepting srv w); [|now split]. destruct w. counts. lia.
  - destruct (stream_alive s w); [|now split]. destruct w. unfold ack.
    mred; repeat (split_all; emit_facts); subst; counts; lia.
  - destruct (user_frame a w) as []. destruct of_tasks0 as (t & Et & Ft).
    destruct of_log0 as (l & El & Fl).
    unfold pending, count in *. rewrite Et, El. counts. lia.
Qed.

Lemma run_promoted_once evs w : promoted_once w -> promoted_once (run evs w).
Proof.
  revert w. induction evs as [|ev evs IH]; intros w Inv; [exact Inv|].
  apply IH, step_promoted_once, Inv.
Qed.

Lemma RaveLevel_promoted_once platform resolve location listeners :
  promoted_once (RaveLevel platform resolve location listeners).
Proof. split; cbn; lia. Qed.

Lemma step_served_direct ev w : served_direct w -> served_direct (step ev w).
Proof.
  intros Inv. destruct ev as [cb err|s|srv e|srv|s|a]; cbn [step];
    unfold served_direct in *.
  - destruct (bool_decide (cb ∈ tasks w)) eqn:Hin; [|exact Inv].
    apply bool_decide_eq_true in Hin. destruct w.
    destruct cb; mred; repeat (split_all; emit_facts); subst; counts;
      first [ intros _; eexists; reflexivity | intros; apply Inv; lia ].
  - destruct (bool_decide _); [|exact Inv]. destruct w. counts. exact Inv.
  - destruct (bool_decide _); [|exact Inv]. destruct w.
    mred; repeat (split_all; emit_facts); subst; counts; intros; apply Inv; lia.
  - destruct (accepting srv w); [|exact Inv]. destruct w. counts.
    intros; apply Inv; lia.
  - destruct (stream_alive s w); [|exact Inv]. destruct w. unfold ack.
    mred; repeat (split_all; emit_facts); subst; counts; intros; apply Inv; lia.
  - destruct (user_frame a w) as []. destruct of_log0 as (l & El & Fl).
    unfold count in *. rewrite El, of_forwardTo0. counts.
    intros; apply Inv; lia.
Qed.

Lemma run_served_direct evs w : served_direct w -> served_direct (run evs w).
Proof.
  revert w. induction evs as [|ev evs IH]; intros w Inv; [exact Inv|].
  apply IH, step_served_direct, Inv.
Qed.

(** X2: a facade is promoted at most once.  In every execution at most
    one server is created and at most one leader signal is emitted, the
    signal needs the server, and it is only emitted by a facade in
    direct mode; once the server exists no election callback is in
    flight. *)
Theorem promoted_at_most_once platform resolve location listeners evs :
  let w := run evs (RaveLevel platform resolve location listeners) in
  count is_create_server w <= 1 /\
  count is_leader w <= count is_create_server w /\
  (0 < count is_leader w -> is_Some (forwardTo w)) /\
  (0 < count is_create_server w -> pending electing w = 0).
Proof.
  intros w.
  destruct (run_promoted_once evs _
              (RaveLevel_promoted_once platform resolve location listeners))
    as [I1 I2].
  assert (I3 : served_direct w).
  { apply run_served_direct. intros H. cbn in H. lia. }
  fold w in I1, I2. repeat split; try lia.
  intros H. apply I3. lia.
Qed.

(** ** Promotion is final *)

Lemma step_promotion_final ev w :
  promoted_once w -> 0 < count is_create_server w ->
  List.filter election_call (log (step ev w)) = List.filter election_call (log w) /\
  forwardTo (step ev w) = forwardTo w.
Proof.
  intros [I1 I2] Hs. destruct ev as [cb err|s|srv e|srv|s|a]; cbn [step].
  - destruct (bool_decide (cb ∈ tasks w)) eqn:Hin; [|now split].
    apply bool_decide_eq_true in Hin. destruct w.
    pose proof (remove_task_pending electing cb tasks0 Hin) as Hcb.
    destruct cb; cbn [electing] in Hcb;
      try (exfalso; unfold pending, count in *; mred; lia);
      mred; repeat (split_all; emit_facts); subst; counts;
      rewrite ?app_nil_r; now split.
  - destruct (bool_decide _); [|now split]. destruct w. counts. now split.
  - destruct (bool_decide _); [|now split]. destruct w.
    mred; repeat (split_all; emit_facts); subst; counts;
      rewrite ?app_nil_r; now split.
  - destruct (accepting srv w); [|now split]. destruct w. counts.
    rewrite ?app_nil_r; now split.
  - destruct (stream_alive s w); [|now split]. destruct w. unfold ack.
    mred; repeat (split_all; emit_facts); subst; counts;
      rewrite ?app_nil_r; now split.
  - destruct (user_frame a w) as []. destruct of_log0 as (l & El & Fl).
    split; [|exact of_forwardTo0]. rewrite El. counts. now rewrite app_nil_r.
Qed.

Lemma run_promotion_final evs w :
  promoted_once w -> 0 < count is_create_server w ->
  List.filter election_call (log (run evs w)) = List.filter election_call (log w) /\
  forwardTo (run evs w) = forwardTo w.
Proof.
  revert w. induction evs as [|ev evs IH]; intros w Inv Hs; [now split|].
  destruct (step_promotion_final ev w Inv Hs) as [E1 E2].
  assert (Hs' : 0 < count is_create_server (step ev w)).
  { pose proof (step_promoted_once ev w Inv) as [J1 _].
    assert (Hle : count is_create_server w <= count is_create_server (step ev w)).
    { unfold count.
      assert (Hc : forall l, length (List.filter is_create_server l)
                             <= length (List.filter election_call l)).
      { induction l as [|x l IHl]; [cbn; lia|]. destruct x; cbn; lia. }
      clear -E1. revert E1. generalize (log (step ev w)) (log w). intros l1 l2 E.
      assert (Hf : forall l, List.filter is_create_server (List.filter election_call l)
                             = List.filter is_create_server l).
      { induction l as [|x l IHl]; [reflexivity|]. destruct x; cbn; now rewrite ?IHl. }
      rewrite <- (Hf l1), <- (Hf l2), E. lia. }
    lia. }
  destruct (IH _ (step_promoted_once ev w Inv) Hs') as [E1' E2'].
  change (run (ev :: evs) w) with (run evs (step ev w)).
  split; congruence.
Qed.

(** X3: promotion is final.  Once a facade has created its server, no
    later event makes it create an engine handle, open it, unlink the
    socket file, set a retry timer, create or bind a server or switch
    the target of direct mode again. *)
Theorem promotion_is_final platform resolve location listeners evs evs' :
  let w := run evs (RaveLevel platform resolve location listeners) in
  0 < count is_create_server w ->
  List.filter election_call (log (run evs' w)) = List.filter election_call (log w) /\
  forwardTo (run evs' w) = forwardTo w.
Proof.
  intros w Hs. apply run_promotion_final; [|exact Hs].
  apply run_promoted_once, RaveLevel_promoted_once.
Qed.

Lemma promotion_is_final_witness :
  0 < count is_create_server (run Scenario.to_binding Scenario.fresh_facade) /\
  forwardTo (run Scenario.after_binding
               (run Scenario.to_binding Scenario.fresh_facade))
  = forwardTo (run Scenario.to_binding Scenario.fresh_facade).
Proof.
  assert (H : 0 < count is_create_server
                    (run Scenario.to_binding Scenario.fresh_facade))
    by (vm_compute; lia).
  split; [exact H|].
  exact (proj2 (promotion_is_final Posix (Path.resolve "/home/u") "db"
                  Scenario.no_listeners Scenario.to_binding
                  Scenario.after_binding H)).
Defined.

(** ** A follower stays a follower until it wins the lock *)

Lemma step_follower ev w :
  lock_won ev = false -> follower w -> follower (step ev w).
Proof.
  intros Hev (I1 & I2 & I3).
  destruct ev as [cb err|s|srv e|srv|s|a]; cbn [step]; unfold follower.
  - destruct (bool_decide (cb ∈ tasks w)) eqn:Hin; [|now repeat split].
    apply bool_decide_eq_true in Hin. destruct w.
    pose proof (remove_task_pending leading_cb cb tasks0 Hin) as Hcb.
    destruct cb; cbn [leading_cb] in Hcb;
      try (exfalso; unfold pending in *; mred; lia);
      try (destruct err; [|discriminate Hev]);
      mred; repeat (split_all; emit_facts); subst; counts;
      rewrite ?I2; repeat split; first [reflexivity | assumption | lia].
  - destruct (bool_decide _); [|now repeat split]. destruct w. counts.
    now repeat split.
  - destruct (bool_decide _); [|now repeat split]. destruct w.
    mred; repeat (split_all; emit_facts); subst; counts;
      rewrite ?I2; repeat split; first [reflexivity | assumption | lia].
  - destruct (accepting srv w); [|now repeat split]. destruct w. counts.
    rewrite ?I2; repeat split; first [reflexivity | assumption | lia].
  - destruct (stream_alive s w); [|now repeat split]. destruct w. unfold ack.
    mred; repeat (split_all; emit_facts); subst; counts;
      rewrite ?I2; repeat split; first [reflexivity | assumption | lia].
  - destruct (user_frame a w) as []. destruct of_tasks0 as (t & Et & Ft).
    destruct of_log0 as (l & El & Fl).
    unfold pending in *. rewrite Et, El, of_forwardTo0. counts.
    rewrite I2. repeat split; try reflexivity; try assumption; lia.
Qed.

Lemma run_follower evs w :
  existsb lock_won evs = false -> follower w -> follower (run evs w).
Proof.
  revert w. induction evs as [|ev evs IH]; intros w Hevs Inv; [exact Inv|].
  cbn [existsb] in Hevs. apply orb_false_iff in Hevs as [Hev Hevs].
  apply IH; [exact Hevs|]. now apply step_follower.
Qed.

(** X4: a facade that never wins the engine lock acts as a follower
    only.  In every execution in which no engine open succeeds, it
    never unlinks the socket file, never creates or binds a server,
    never signals leadership and never leaves proxy mode. *)
Theorem follower_until_lock_won platform resolve location listeners evs :
  existsb lock_won evs = false ->
  let w := run evs (RaveLevel platform resolve location listeners) in
  List.filter leader_only (log w) = [] /\ forwardTo w = None.
Proof.
  intros Hevs w.
  assert (F : follower w).
  { apply run_follower; [exact Hevs|]. repeat split. }
  destruct F as (_ & F2 & F3). now split.
Qed.

Lemma follower_until_lock_won_witness :
  existsb lock_won Scenario.locked_out = false /\
  forwardTo (run Scenario.locked_out Scenario.fresh_facade) = None.
Proof.
  assert (H : existsb lock_won Scenario.locked_out = false) by reflexivity.
  split; [exact H|].
  exact (proj2 (follower_until_lock_won Posix (Path.resolve "/home/u") "db"
                  Scenario.no_listeners Scenario.locked_out H)).
Defined.

(** ** Only fatal events are signalled *)

Ltac fin_errors :=
  repeat rewrite errors_app; cbn [errors];
  repeat match goal with
  | F : Forall (owner_effect _) ?l |- context [errors ?l] =>
      rewrite (errors_owner _ l F)
  end;
  rewrite ?app_nil_r, ?List.length_app; cbn [length errors].

Ltac run_event :=
  mred;
  repeat match goal with
  | |- context [is_level_locked ?e] => destruct (is_level_locked e) eqn:?; mred
  end;
  repeat (split_all; emit_facts); subst.

Lemma step_errors ev w :
  length (errors (log (step ev w)))
  <= length (errors (log w)) + (if fatal_event ev then 1 else 0) /\
  (fatal_event ev = false -> errors (log (step ev w)) = errors (log w)).
Proof.
  destruct ev as [cb err|s|srv e|srv|s|a]; cbn [step].
  - destruct (bool_decide (cb ∈ tasks w)) eqn:Hin;
      [|split; [lia|reflexivity]].
    destruct w.
    destruct cb; try destruct err as [e|]; cbn [fatal_event]; run_event;
      (split; [fin_errors; lia
              |intros Hev; try discriminate Hev; fin_errors; reflexivity]).
  - destruct (bool_decide _); [|split; [lia|reflexivity]]. destruct w. mred.
    split; [lia|reflexivity].
  - split; [|discriminate].
    destruct (bool_decide _); [|cbn [fatal_event]; lia]. destruct w.
    cbn [fatal_event]. run_event; fin_errors; lia.
  - destruct (accepting srv w); [|split; [lia|reflexivity]]. destruct w.
    cbn [fatal_event]. mred. split; [fin_errors; lia|fin_errors; reflexivity].
  - destruct (stream_alive s w); [|split; [lia|reflexivity]]. destruct w.
    unfold ack. cbn [fatal_event]. run_event;
      (split; [fin_errors; lia|intros _; fin_errors; reflexivity]).
  - destruct (user_frame a w) as []. destruct of_log0 as (l & El & Fl).
    rewrite El, errors_app, (errors_owner _ l Fl), app_nil_r.
    split; [cbn [fatal_event]; lia|reflexivity].
Qed.

(** X5: only fatal events are signalled, and each at most once.  In
    every execution from any world the number of error signals grows
    by at most the number of fatal events (an engine open failure other
    than lock contention, an unlink failure other than ENOENT, a server
    error, the end of the loopback pipeline); connection ends, lock
    contention, absent socket files, timers, accepted connections,
    answers and the owner's own actions never add one. *)
Theorem errors_only_from_fatal_events (w : World) (evs : list Event) :
  length (errors (log (run evs w)))
  <= length (errors (log w)) + length (List.filter fatal_event evs) /\
  (existsb fatal_event evs = false -> errors (log (run evs w)) = errors (log w)).
Proof.
  revert w. induction evs as [|ev evs IH]; intros w.
  - cbn. split; [lia|reflexivity].
  - change (run (ev :: evs) w) with (run evs (step ev w)).
    destruct (IH (step ev w)) as [L E]. destruct (step_errors ev w) as [L' E'].
    cbn [List.filter existsb]. split.
    + destruct (fatal_event ev); cbn [length]; lia.
    + intros H. apply orb_false_iff in H as [H1 H2].
      now rewrite (E H2), (E' H1).
Qed.

Lemma errors_only_from_fatal_events_witness :
  existsb fatal_event Scenario.locked_out = false /\
  errors (log (run Scenario.locked_out Scenario.fresh_facade))
  = errors (log Scenario.fresh_facade).
Proof.
  assert (H : existsb fatal_event Scenario.locked_out = false) by reflexivity.
  split; [exact H|].
  exact (proj2 (errors_only_from_fatal_events Scenario.fresh_facade
                  Scenario.locked_out) H).
Defined.

(** ** Backoff *)

Lemma step_backed_off ev w :
  is_connect_event ev = false -> backed_off w -> backed_off (step ev w).
Proof.
  intros Hev [I1 I2].
  destruct ev as [cb err|s|srv e|srv|s|a]; cbn [step]; unfold backed_off;
    try discriminate Hev.
  - destruct (bool_decide (cb ∈ tasks w)) eqn:Hin; [|now split].
    apply bool_decide_eq_true in Hin. destruct w.
    mred; subst.
    destruct cb; run_event2;
      try match goal with
      | H : bool_decide (_ ∈ []) = true |- _ =>
          apply bool_decide_eq_true, elem_of_nil in H; contradiction
      end;
      counts; (split; [reflexivity|lia]).
  - destruct (bool_decide _); [|now split]. destruct w.
    mred; subst. run_event2; counts; (split; [reflexivity|lia]).
  - destruct (accepting srv w); [|now split]. destruct w. mred; subst. counts.
    split; [reflexivity|lia].
  - destruct (stream_alive s w); [|now split]. destruct w. unfold ack.
    mred; subst. run_event2; counts; (split; [reflexivity|lia]).
  - destruct (user_frame a w) as []. destruct of_tasks0 as (t & Et & Ft).
    destruct of_log0 as (l & El & Fl).
    unfold pending, count in *. rewrite Et, El, of_connected0. counts.
    split; [assumption|lia].
Qed.

(** X6: without a live leader the retries are paced by the timer.  In
    every execution in which no follower connection ever connects, the
    number of engine handles the facade has created is at most the
    number of 100 ms timers it has set plus one: every attempt on the
    engine after the first was preceded by a timer of its own. *)
Theorem retries_are_paced platform resolve location listeners evs :
  existsb is_connect_event evs = false ->
  let w := run evs (RaveLevel platform resolve location listeners) in
  count is_new_db w <= count is_timeout w + 1.
Proof.
  intros Hevs w.
  assert (B : backed_off w); [|destruct B as [_ B]; lia].
  subst w.
  assert (B0 : backed_off (RaveLevel platform resolve location listeners))
    by (split; [reflexivity|cbn; lia]).
  revert B0 Hevs. generalize (RaveLevel platform resolve location listeners).
  induction evs as [|ev evs IH]; intros w0 B0 Hevs; [exact B0|].
  cbn [existsb] in Hevs. apply orb_false_iff in Hevs as [Hev Hevs].
  change (run (ev :: evs) w0) with (run evs (step ev w0)).
  apply IH; [|exact Hevs]. now apply step_backed_off.
Qed.

Lemma retries_are_paced_witness :
  existsb is_connect_event Scenario.locked_out = false /\
  count is_new_db (run Scenario.locked_out Scenario.fresh_facade)
  <= count is_timeout (run Scenario.locked_out Scenario.fresh_facade) + 1.
Proof.
  assert (H : existsb is_connect_event Scenario.locked_out = false) by reflexivity.
  split; [exact H|].
  exact (retries_are_paced Posix (Path.resolve "/home/u") "db"
           Scenario.no_listeners Scenario.locked_out H).
Defined.

(** ** Listeners do not outlive their pipeline *)

Lemma elem_of_set_add (x y : nat) l : y ∈ set_add x l <-> y = x \/ y ∈ l.
Proof.
  unfold set_add. destruct (bool_decide (x ∈ l)) eqn:E.
  - apply bool_decide_eq_true in E. split; [auto|]. intros [->|H]; auto.
  - rewrite elem_of_app. split.
    + intros [H|H]; [now right|]. left. now apply list_elem_of_singleton in H.
    + intros [->|H]; [right; now apply list_elem_of_singleton | now left].
Qed.

Lemma elem_of_set_delete (x y : nat) l : y ∈ set_delete x l <-> y <> x /\ y ∈ l.
Proof. unfold set_delete. rewrite list_elem_of_filter. tauto. Qed.

Lemma elem_of_remove_task_ne cb cb' l :
  cb' <> cb -> cb' ∈ l -> cb' ∈ remove_task cb l.
Proof.
  intros Hne. induction l as [|c l IH]; [easy|].
  cbn [remove_task]. destruct (bool_decide (c = cb)) eqn:E.
  - apply bool_decide_eq_true in E. subst c.
    rewrite elem_of_cons. intros [H|H]; [contradiction|exact H].
  - rewrite !elem_of_cons. intros [H|H]; auto.
Qed.

(** A pending callback stays pending when another one runs and more
    are registered. *)
Ltac still_pending Inv :=
  repeat match goal with
  | H : _ ∈ set_add _ _ |- _ => apply elem_of_set_add in H as [H|H]
  | H : _ ∈ set_delete _ _ |- _ => apply elem_of_set_delete in H as [? H]
  | H : _ ∈ _ ++ _ |- _ => apply elem_of_app in H as [H|H]
  | H : _ ∈ [_] |- _ => apply list_elem_of_singleton in H
  | H : _ ∈ [] |- _ => apply elem_of_nil in H; contradiction
  | H : ?l = ?l' \/ ?l = [] |- _ => destruct H; subst l
  end;
  subst;
  repeat rewrite elem_of_app;
  first
    [ left; left; apply elem_of_remove_task_ne; [congruence | now apply Inv]
    | left; apply elem_of_remove_task_ne; [congruence | now apply Inv]
    | apply elem_of_remove_task_ne; [congruence | now apply Inv]
    | left; right; now apply list_elem_of_singleton
    | right; now apply list_elem_of_singleton
    | left; left; now apply Inv
    | left; now apply Inv
    | now apply Inv ].

Lemma step_listeners_live ev w : listeners_live w -> listeners_live (step ev w).
Proof.
  intros [I1 I2]. destruct ev as [cb err|s|srv e|srv|s|a]; cbn [step];
    unfold listeners_live.
  - destruct (bool_decide (cb ∈ tasks w)) eqn:Hin; [|now split].
    apply bool_decide_eq_true in Hin. destruct w. mred.
    destruct cb; run_event2;
      (split; intros s' Hs'; [still_pending I1 | still_pending I2]).
  - destruct (bool_decide _); [|now split]. destruct w. mred.
    split; intros s' Hs'; [still_pending I1 | still_pending I2].
  - destruct (bool_decide _); [|now split]. destruct w. mred.
    run_event2; (split; intros s' Hs'; [still_pending I1 | still_pending I2]).
  - destruct (accepting srv w); [|now split]. destruct w. mred.
    split; intros s' Hs'; [still_pending I1 | still_pending I2].
  - destruct (stream_alive s w); [|now split]. destruct w. unfold ack. mred.
    run_event2; (split; intros s' Hs'; [still_pending I1 | still_pending I2]).
  - destruct (user_frame a w) as []. destruct of_tasks0 as (t & Et & Ft).
    rewrite Et, of_connectL0. split; intros s' Hs'.
    + apply elem_of_app. left. now apply I1.
    + apply elem_of_app. left. apply I2.
      destruct of_flushL0 as [E|E]; rewrite E in Hs'; [exact Hs'|].
      now apply elem_of_nil in Hs'.
Qed.

Lemma run_listeners_live evs w : listeners_live w -> listeners_live (run evs w).
Proof.
  revert w. induction evs as [|ev evs IH]; intros w Inv; [exact Inv|].
  apply IH, step_listeners_live, Inv.
Qed.

(** X7: listeners do not outlive their pipeline.  In every execution a
    socket still has the connect listener of [kConnect] only while its
    follower pipeline is in flight, and the flush listener of the flush
    barrier is only registered while the loopback pipeline is in
    flight. *)
Theorem listeners_end_with_pipeline platform resolve location listeners evs :
  let w := run evs (RaveLevel platform resolve location listeners) in
  (forall s, s ∈ connectL w -> CbFollowerEnd s ∈ tasks w) /\
  (forall s, s ∈ flushL w -> CbLoopEnd s ∈ tasks w).
Proof.
  intros w. apply run_listeners_live.
  split; intros s H; cbn in H; now apply elem_of_nil in H.
Qed.

(** ** The set of sockets of the leader server *)

Lemma remove_task_filter_other (p : Callback -> bool) cb l :
  p cb = false -> List.filter p (remove_task cb l) = List.filter p l.
Proof.
  intros Hp. induction l as [|c l IH]; [reflexivity|].
  cbn [remove_task]. destruct (bool_decide (c = cb)) eqn:E.
  - apply bool_decide_eq_true in E. subst c. cbn [List.filter]. now rewrite Hp.
  - cbn [List.filter]. now rewrite IH.
Qed.

Lemma listens_app l1 l2 : listens (l1 ++ l2) = listens l1 ++ listens l2.
Proof.
  induction l1 as [|e l1 IH]; [reflexivity|].
  destruct e; cbn [app listens]; now rewrite ?IH.
Qed.

Lemma listens_owner rs l : Forall (owner_effect rs) l -> listens l = [].
Proof.
  induction 1 as [|e l He _ IH]; [reflexivity|].
  destruct e; cbn [listens owner_effect] in *; try exact IH; contradiction.
Qed.

Lemma accepting_listens srv w : accepting srv w = true -> srv ∈ listens (log w).
Proof.
  unfold accepting. intros H. apply andb_true_iff in H as [H _].
  induction (log w) as [|e l IH]; [discriminate|].
  cbn [existsb] in H. destruct e; cbn [listens]; try (apply IH, H).
  apply orb_true_iff in H as [H|H].
  - apply Nat.eqb_eq in H. subst. now left.
  - right. apply IH, H.
Qed.

Lemma sockets_live_frame w w' :
  sockets w' = sockets w -> host_ends w' = host_ends w ->
  listens (log w') = listens (log w) -> nextId w <= nextId w' ->
  sockets_live w -> sockets_live w'.
Proof.
  intros Es Eh El Hn (I1 & I2 & I3 & I4). unfold sockets_live, sockets_of in *.
  rewrite Es, Eh, El. repeat split; auto.
  - apply I2 in H. lia.
  - apply I2 in H. lia.
  - now apply I2 in H.
  - intros srv H. apply I4 in H. lia.
Qed.

Ltac fin_host_ends :=
  unfold host_ends; mred;
  repeat rewrite List.filter_app;
  repeat (rewrite remove_task_filter_other by reflexivity);
  repeat match goal with
  | F : Forall closing_task ?t |- context [List.filter ?p ?t] =>
      let Hp := fresh in
      assert (Hp : forall cb, closing_task cb -> p cb = false)
        by (intros [] ?; cbn [closing_task] in *; first [contradiction | reflexivity]);
      rewrite (filter_closing p t Hp F); clear Hp
  end;
  cbn [List.filter is_host_end]; rewrite ?app_nil_r; try reflexivity.

Ltac fin_listens :=
  mred; repeat rewrite listens_app; cbn [listens];
  repeat match goal with
  | F : Forall (owner_effect _) ?l |- context [listens ?l] =>
      rewrite (listens_owner _ l F)
  end;
  rewrite ?app_nil_r; try reflexivity.

(** Every event but an accepted connection, the end of a host pipeline
    and the end of an unlink leaves the sets, the host pipelines and
    the listening servers alone. *)
Lemma step_sockets_frame ev w :
  match ev with
  | EvAccept _ | EvDone (CbHostEnd _ _) _ | EvDone (CbUnlink _) _ => False
  | _ => True
  end ->
  sockets (step ev w) = sockets w /\
  host_ends (step ev w) = host_ends w /\
  listens (log (step ev w)) = listens (log w) /\
  nextId w <= nextId (step ev w).
Proof.
  intros Hev. destruct ev as [cb err|s|srv e|srv|s|a]; cbn [step];
    try contradiction.
  - destruct (bool_decide (cb ∈ tasks w)) eqn:Hin; [|now repeat split].
    destruct w. mred.
    destruct cb; try contradiction;
      run_event2;
      (split; [reflexivity|split; [fin_host_ends|split; [fin_listens|mred; lia]]]).
  - destruct (bool_decide _); [|now repeat split]. destruct w. mred.
    now repeat split.
  - destruct (bool_decide _); [|now repeat split]. destruct w. mred.
    run_event2;
      (split; [reflexivity|split; [fin_host_ends|split; [fin_listens|mred; lia]]]).
  - destruct (stream_alive s w); [|now repeat split]. destruct w. unfold ack.
    run_event2;
      (split; [reflexivity|split; [fin_host_ends|split; [fin_listens|mred; lia]]]).
  - destruct (user_frame a w) as []. destruct of_tasks0 as (t & Et & Ft).
    destruct of_log0 as (l & El & Fl).
    split; [exact of_sockets0|]. split; [|split; [|lia]].
    + unfold host_ends. rewrite Et. fin_host_ends.
    + rewrite El. fin_listens.
Qed.

Lemma step_sockets_unlink db err w :
  sockets_live w -> sockets_live (step (EvDone (CbUnlink db) err) w).
Proof.
  intros Inv. cbn [step].
  destruct (bool_decide (_ ∈ tasks w)) eqn:Hin; [|exact Inv].
  destruct (is_open (status w)) eqn:Ho.
  2:{ eapply sockets_live_frame; [| | | |exact Inv];
        destruct w; mred; rewrite Ho; mred; [reflexivity|fin_host_ends|reflexivity|lia]. }
  destruct (unlink_fatal err) as [e|] eqn:Hf.
  { eapply sockets_live_frame; [| | | |exact Inv];
      destruct w; mred; rewrite Ho, Hf; mred;
      rewrite Ho; run_event2;
      [reflexivity|fin_host_ends|fin_listens|lia]. }
  unfold sockets_live, sockets_of, host_ends in Inv.
  destruct Inv as (I1 & I2 & I3 & I4).
  unfold sockets_live, sockets_of, host_ends. destruct w.
  cbn [tasks sockets log nextId status] in *. mred. rewrite Ho, Hf. mred.
  assert (Hh : List.filter is_host_end
                 (remove_task (CbUnlink db) tasks0 ++ [CbListen nextId0])
               = List.filter is_host_end tasks0).
  { rewrite List.filter_app, remove_task_filter_other by reflexivity.
    cbn [List.filter is_host_end]. now rewrite app_nil_r. }
  destruct (bool_decide (RServer nextId0 ∈ resources0)); mred; rewrite Hh.
  all: split; [exact I1|]; split; [|split].
  all: try (intros srv s H; destruct (I2 srv s H) as (H1 & H2 & H3);
            repeat split; try lia; rewrite lookup_insert_ne by lia; exact H3).
  all: try (intros srv s H; apply I3;
            destruct (decide (nextId0 = srv)) as [->|Hne];
            [rewrite lookup_insert_eq in H; now apply elem_of_nil in H
            |now rewrite lookup_insert_ne in H]).
  all: intros srv H; repeat rewrite listens_app in H; cbn [listens] in H;
    rewrite ?app_nil_r in H;
    apply elem_of_app in H as [H|H]; [apply I4 in H; lia|];
    apply list_elem_of_singleton in H; lia.
Qed.

Lemma remove_task_filter_self (p : Callback -> bool) cb l :
  p cb = true -> List.filter p (remove_task cb l) = remove_task cb (List.filter p l).
Proof.
  intros Hp. induction l as [|c l IH]; [reflexivity|].
  cbn [remove_task]. destruct (bool_decide (c = cb)) eqn:E.
  - apply bool_decide_eq_true in E. subst c. cbn [List.filter]. rewrite Hp.
    cbn [remove_task]. now rewrite bool_decide_eq_true_2.
  - cbn [List.filter]. destruct (p c); [|exact IH].
    cbn [remove_task]. now rewrite E, IH.
Qed.

Lemma elem_of_remove_task_NoDup cb x l :
  NoDup l -> x ∈ remove_task cb l <-> x <> cb /\ x ∈ l.
Proof.
  induction 1 as [|c l Hc Hl IH]; cbn [remove_task].
  - split; [intros H | intros [_ H]]; now apply elem_of_nil in H.
  - destruct (bool_decide (c = cb)) eqn:E.
    + apply bool_decide_eq_true in E. subst c. rewrite elem_of_cons. split.
      * intros H. split; [|now right]. intros ->. contradiction.
      * intros [Hne [H|H]]; [contradiction|exact H].
    + apply bool_decide_eq_false in E. rewrite !elem_of_cons, IH. split.
      * intros [->|[H1 H2]]; auto.
      * intros [H1 [H2|H2]]; auto.
Qed.

Lemma NoDup_remove_task cb l : NoDup l -> NoDup (remove_task cb l).
Proof.
  induction 1 as [|c l Hc Hl IH]; cbn [remove_task]; [constructor|].
  destruct (bool_decide (c = cb)); [exact Hl|].
  constructor; [|exact IH]. intros H. apply Hc.
  now apply (elem_of_remove_task_NoDup cb c l Hl) in H.
Qed.

Lemma step_sockets_accept srv w :
  sockets_live w -> sockets_live (step (EvAccept srv) w).
Proof.
  intros Inv. cbn [step]. destruct (accepting srv w) eqn:Ha; [|exact Inv].
  apply accepting_listens in Ha.
  unfold sockets_live, sockets_of, host_ends in Inv.
  destruct Inv as (I1 & I2 & I3 & I4). apply I4 in Ha.
  unfold sockets_live, sockets_of, host_ends. destruct w.
  cbn [tasks sockets log nextId status] in *. mred.
  rewrite List.filter_app. cbn [List.filter is_host_end].
  repeat rewrite listens_app. cbn [listens]. rewrite ?app_nil_r.
  split; [|split; [|split]].
  - apply NoDup_app. split; [exact I1|]. split; [|apply NoDup_singleton].
    intros cb Hcb Hx. apply list_elem_of_singleton in Hx. subst cb.
    apply I2 in Hcb. lia.
  - intros srv' s H. apply elem_of_app in H as [H|H].
    + destruct (I2 srv' s H) as (H1 & H2 & H3). repeat split; try lia.
      destruct (decide (srv = srv')) as [->|Hne].
      * rewrite lookup_insert_eq. cbn [default]. apply elem_of_set_add. now right.
      * now rewrite lookup_insert_ne.
    + apply list_elem_of_singleton in H. injection H as -> ->.
      repeat split; try lia. rewrite lookup_insert_eq. cbn [default].
      apply elem_of_set_add. now left.
  - intros srv' s H. apply elem_of_app.
    destruct (decide (srv = srv')) as [->|Hne].
    + rewrite lookup_insert_eq in H. cbn [default] in H.
      apply elem_of_set_add in H as [->|H].
      * right. now apply list_elem_of_singleton.
      * left. now apply I3.
    + rewrite lookup_insert_ne in H by exact Hne. left. now apply I3.
  - intros srv' H. apply I4 in H. lia.
Qed.

Lemma step_sockets_host_end srv s err w :
  sockets_live w -> sockets_live (step (EvDone (CbHostEnd srv s) err) w).
Proof.
  intros Inv. cbn [step].
  destruct (bool_decide (_ ∈ tasks w)) eqn:Hin; [|exact Inv].
  unfold sockets_live, sockets_of, host_ends in Inv.
  destruct Inv as (I1 & I2 & I3 & I4).
  unfold sockets_live, sockets_of, host_ends. destruct w.
  cbn [tasks sockets log nextId status] in *. mred.
  rewrite remove_task_filter_self by reflexivity.
  split; [|split; [|split]].
  - now apply NoDup_remove_task.
  - intros srv' s' H. apply elem_of_remove_task_NoDup in H as [Hne H]; [|exact I1].
    destruct (I2 srv' s' H) as (H1 & H2 & H3). repeat split; try lia.
    destruct (decide (srv = srv')) as [->|Hs].
    + rewrite lookup_insert_eq. cbn [default]. apply elem_of_set_delete.
      split; [congruence|exact H3].
    + now rewrite lookup_insert_ne.
  - intros srv' s' H. apply elem_of_remove_task_NoDup; [exact I1|].
    destruct (decide (srv = srv')) as [->|Hs].
    + rewrite lookup_insert_eq in H. cbn [default] in H.
      apply elem_of_set_delete in H as [Hne H]. split; [congruence|now apply I3].
    + rewrite lookup_insert_ne in H by exact Hs. split; [congruence|now apply I3].
  - exact I4.
Qed.

Lemma step_sockets_live ev w : sockets_live w -> sockets_live (step ev w).
Proof.
  intros Inv.
  destruct ev as [[]|?|? ?|?|?|?];
    first
      [ now apply step_sockets_unlink
      | now apply step_sockets_accept
      | now apply step_sockets_host_end
      | match goal with
        | |- sockets_live (step ?ev ?w) =>
            destruct (step_sockets_frame ev w I) as (E1 & E2 & E3 & E4);
            exact (sockets_live_frame w _ E1 E2 E3 E4 Inv)
        end ].
Qed.

Lemma run_sockets_live evs w : sockets_live w -> sockets_live (run evs w).
Proof.
  revert w. induction evs as [|ev evs IH]; intros w Inv; [exact Inv|].
  apply IH, step_sockets_live, Inv.
Qed.

Lemma RaveLevel_sockets_live platform resolve location listeners :
  sockets_live (RaveLevel platform resolve location listeners).
Proof.
  unfold sockets_live, sockets_of, host_ends, RaveLevel. mred.
  cbn [List.filter is_host_end listens]. split; [constructor|].
  split; [|split].
  - intros srv s H. now apply elem_of_nil in H.
  - intros srv s H. rewrite lookup_empty in H. now apply elem_of_nil in H.
  - intros srv H. now apply elem_of_nil in H.
Qed.

Lemma elem_of_host_ends srv s w :
  CbHostEnd srv s ∈ host_ends w <-> CbHostEnd srv s ∈ tasks w.
Proof.
  unfold host_ends. rewrite !list_elem_of_In, filter_In. cbn [is_host_end].
  tauto.
Qed.

(** X8: the set of sockets of a server holds exactly the connections
    whose host pipeline has not ended.  In every execution a socket is
    in the [sockets] set of a server (lines 99, 104, 107) if and only
    if the callback of its host [pipeline] (line 106) is still to run,
    and no connection has two such callbacks.  So the [close] closure
    of the server (lines 113-116), whenever it runs, destroys the
    connections that are still piped and no other. *)
Theorem sockets_are_the_live_connections platform resolve location listeners evs :
  let w := run evs (RaveLevel platform resolve location listeners) in
  NoDup (host_ends w) /\
  (forall srv s, s ∈ sockets_of srv w <-> CbHostEnd srv s ∈ tasks w) /\
  (forall srv cb s,
     ESockDestroy s ∈ since w (exec (serverClose srv cb) w)
     <-> CbHostEnd srv s ∈ tasks w).
Proof.
  intros w.
  destruct (run_sockets_live evs _
              (RaveLevel_sockets_live platform resolve location listeners))
    as (I1 & I2 & I3 & _).
  fold w in I1, I2, I3.
  assert (Hiff : forall srv s, s ∈ sockets_of srv w <-> CbHostEnd srv s ∈ tasks w).
  { intros srv s. rewrite <- elem_of_host_ends. split; [apply I3|apply I2]. }
  split; [exact I1|]. split; [exact Hiff|].
  intros srv cb s. rewrite <- Hiff. unfold since. rewrite serverClose_eq.
  fold (sockets_of srv w). destruct w. mred.
  rewrite drop_app_length, elem_of_app, list_elem_of_fmap. split.
  - intros [(s' & E & H)|H]; [now injection E as ->|].
    apply list_elem_of_singleton in H. discriminate.
  - intros H. left. now exists s.
Qed.

(** ** What the election works on is attached *)

Ltac fin_unpromoted Inv :=
  counts;
  let H := fresh in
  intros H;
  first
    [ exfalso; lia
    | let I1 := fresh in let I2 := fresh in
      destruct Inv as [I1 I2]; [lia|]; split; [exact I1|];
      let srv := fresh in let Hs := fresh in
      intros srv Hs;
      repeat match goal with
      | E : forall srv, srv ∈ _ -> srv ∈ _ |- _ => apply E in Hs
      end;
      exact (I2 _ Hs) ].

Lemma step_unpromoted ev w : unpromoted w -> unpromoted (step ev w).
Proof.
  intros Inv. destruct ev as [cb err|s|srv e|srv|s|a]; cbn [step];
    unfold unpromoted in *.
  - destruct (bool_decide (cb ∈ tasks w)) eqn:Hin; [|exact Inv].
    apply bool_decide_eq_true in Hin. destruct w.
    destruct cb; run_event2; fin_unpromoted Inv.
  - destruct (bool_decide _); [|exact Inv]. destruct w. mred. fin_unpromoted Inv.
  - destruct (bool_decide _); [|exact Inv]. destruct w.
    run_event2; fin_unpromoted Inv.
  - destruct (accepting srv w); [|exact Inv]. destruct w. mred. fin_unpromoted Inv.
  - destruct (stream_alive s w); [|exact Inv]. destruct w. unfold ack.
    run_event2; fin_unpromoted Inv.
  - destruct (user_frame a w) as []. destruct of_log0 as (l & El & Fl).
    unfold count in *. rewrite El, of_forwardTo0. counts. intros H.
    destruct Inv as [I1 I2]; [lia|]. split; [exact I1|].
    intros srv Hs. apply of_errorL0 in Hs. now apply I2 in Hs.
Qed.

Lemma run_unpromoted evs w : unpromoted w -> unpromoted (run evs w).
Proof.
  revert w. induction evs as [|ev evs IH]; intros w Inv; [exact Inv|].
  apply IH, step_unpromoted, Inv.
Qed.

Lemma pending_pos (p : Callback -> bool) cb w :
  cb ∈ tasks w -> p cb = true -> 0 < pending p w.
Proof.
  unfold pending. intros H Hp.
  assert (Hin : In cb (List.filter p (tasks w))).
  { apply filter_In. split; [now apply list_elem_of_In|exact Hp]. }
  destruct (List.filter p (tasks w)); [destruct Hin|cbn; lia].
Qed.

(** With one callback of the chain in flight, no other pending callback
    works on a resource. *)
Lemma others_hold_nothing cb cb' l :
  length (List.filter chain l) <= 1 -> cb ∈ l -> chain cb = true ->
  cb' ∈ remove_task cb l -> resource_of cb' = None.
Proof.
  intros Hl Hin Hc H.
  pose proof (remove_task_pending chain cb l Hin) as E. rewrite Hc in E.
  assert (Z : List.filter chain (remove_task cb l) = []).
  { destruct (List.filter chain (remove_task cb l)); [reflexivity|].
    cbn [length] in E. lia. }
  assert (Hn : chain cb' = false).
  { destruct (chain cb') eqn:Hcb; [|reflexivity]. exfalso.
    assert (Hf : In cb' (List.filter chain (remove_task cb l))).
    { apply filter_In. split; [now apply list_elem_of_In|exact Hcb]. }
    rewrite Z in Hf. destruct Hf. }
  destruct cb'; cbn in Hn |- *; congruence.
Qed.

Lemma closing_holds_nothing t cb :
  Forall closing_task t -> cb ∈ t -> resource_of cb = None.
Proof.
  intros F H. rewrite Forall_forall in F. specialize (F cb H).
  destruct cb; cbn in *; first [reflexivity|contradiction].
Qed.

Ltac in_resources :=
  first
    [ assumption
    | apply elem_of_app; left; assumption
    | apply elem_of_app; right; now apply list_elem_of_singleton
    | match goal with
      | H : bool_decide (?r ∈ ?rs) = true |- ?r ∈ ?rs =>
          exact (proj1 (bool_decide_eq_true _) H)
      end ].

(** The facts at hand once the facade is known to be open after a
    step: it was open before, unless it has just been opened. *)
Ltac was_open Inv Hst :=
  try discriminate Hst;
  repeat match goal with
  | H : _ = Open -> _ = Open /\ _ /\ _ |- _ =>
      let E1 := fresh in let E2 := fresh in let E3 := fresh in
      destruct (H Hst) as (E1 & E2 & E3); clear H; subst
  end;
  repeat match goal with
  | H : is_open ?s = true |- _ => destruct s; try discriminate H; clear H
  end;
  try (let I1 := fresh "I1" in let I2 := fresh "I2" in let I3 := fresh "I3" in
       first [ destruct (Inv Hst) as (I1 & I2 & I3)
             | destruct (Inv eq_refl) as (I1 & I2 & I3) ]).

Ltac held Ho Hn Hin :=
  match goal with
  | |- forall (cb : Callback) (r : Resource), _ =>
      let cb := fresh "cb" in let r := fresh "r" in
      let Hc := fresh "Hc" in let Hr := fresh "Hr" in
      intros cb r Hc Hr;
      repeat match goal with
      | H : _ ∈ _ ++ _ |- _ => apply elem_of_app in H as [H|H]
      | H : _ ∈ [_] |- _ => apply list_elem_of_singleton in H; subst
      end;
      first
        [ discriminate Hr
        | exfalso;
          match goal with
          | F : Forall closing_task ?t, H : cb ∈ ?t |- _ =>
              rewrite (closing_holds_nothing t cb F H) in Hr; discriminate Hr
          end
        | exfalso; rewrite (Ho cb eq_refl Hc) in Hr; discriminate Hr
        | injection Hr as <-; in_resources
        | injection Hr as <-;
          match goal with
          | I1 : forall cb r, cb ∈ _ -> _ |- _ =>
              pose proof (I1 _ _ Hin eq_refl); in_resources
          end
        | try apply elem_of_remove_task in Hc;
          match goal with
          | I1 : forall cb r, cb ∈ _ -> _ |- _ =>
              pose proof (I1 _ _ Hc Hr); in_resources
          end ]
  | |- forall db : nat, _ = Some db -> _ =>
      let db := fresh "db" in let Hf := fresh "Hf" in
      intros db Hf;
      first
        [ exfalso; destruct (Hn eq_refl) as [? ?]; congruence
        | injection Hf as <-;
          match goal with
          | I1 : forall cb r, cb ∈ _ -> _ |- _ =>
              pose proof (I1 _ _ Hin eq_refl); in_resources
          end
        | match goal with
          | I2 : forall db, _ = Some db -> _ |- _ =>
              pose proof (I2 _ Hf); in_resources
          end ]
  | |- forall srv : nat, srv ∈ _ -> _ =>
      let srv := fresh "srv" in let Hs := fresh "Hs" in
      intros srv Hs;
      repeat match goal with
      | H : _ ∈ _ ++ _ |- _ => apply elem_of_app in H as [H|H]
      | H : _ ∈ [_] |- _ => apply list_elem_of_singleton in H; subst
      end;
      first
        [ exfalso; destruct (Hn eq_refl) as [_ Hx]; exact (Hx _ Hs)
        | in_resources
        | match goal with
          | I3 : forall srv, srv ∈ _ -> _ |- _ =>
              pose proof (I3 _ Hs); in_resources
          end ]
  end.

Lemma step_attached ev w :
  pending chain w <= 1 -> promoted_once w -> unpromoted w ->
  attached w -> attached (step ev w).
Proof.
  intros A1 [A2 _] A3 Inv.
  assert (A4 : 0 < pending electing w ->
               forwardTo w = None /\ forall srv, srv ∉ errorL w).
  { intros H. apply A3. lia. }
  clear A2 A3.
  destruct ev as [cb err|s|srv e|srv|s|a]; cbn [step]; unfold attached in *.
  - destruct (bool_decide (cb ∈ tasks w)) eqn:Hin; [|exact Inv].
    apply bool_decide_eq_true in Hin.
    pose proof (fun cb' => others_hold_nothing cb cb' (tasks w) A1 Hin) as Ho.
    pose proof (fun H => A4 (pending_pos electing cb w Hin H)) as Hn.
    clear A1 A4. destruct w. mred.
    destruct cb; run_event2; intros Hst.
    all: cbn [chain electing] in Ho, Hn.
    all: was_open Inv Hst.
    all: split; [|split]; held Ho Hn Hin.
  - destruct (bool_decide _); [|exact Inv]. destruct w. mred.
    intros Hst. was_open Inv Hst. split; [|split]; held I I I.
  - destruct (bool_decide _); [|exact Inv]. destruct w.
    run_event2; intros Hst; was_open Inv Hst; (split; [|split]; held I I I).
  - destruct (accepting srv w); [|exact Inv]. destruct w. mred.
    intros Hst. was_open Inv Hst. split; [|split]; held I I I.
  - destruct (stream_alive s w); [|exact Inv]. destruct w. unfold ack.
    run_event2; intros Hst; was_open Inv Hst; (split; [|split]; held I I I).
  - intros Hst. destruct (user_stays_open a w Hst) as (H1 & H2 & H3).
    destruct (user_frame a w) as []. destruct of_tasks0 as (t & Et & Ft).
    destruct (Inv H1) as (I1 & I2 & I3).
    rewrite Et, H2, H3, of_forwardTo0. split; [|split]; held I I I.
Qed.

Lemma RaveLevel_unpromoted platform resolve location listeners :
  unpromoted (RaveLevel platform resolve location listeners).
Proof.
  intros _. split; [reflexivity|]. intros srv H. cbn in H.
  now apply elem_of_nil in H.
Qed.

Lemma RaveLevel_attached platform resolve location listeners :
  attached (RaveLevel platform resolve location listeners).
Proof. intros H. discriminate H. Qed.

Lemma run_attached evs w :
  pending chain w <= 1 -> promoted_once w -> unpromoted w ->
  attached w -> attached (run evs w).
Proof.
  revert w. induction evs as [|ev evs IH]; intros w A1 A2 A3 Inv; [exact Inv|].
  apply IH.
  - now apply step_one_in_flight.
  - now apply step_promoted_once.
  - now apply step_unpromoted.
  - now apply step_attached.
Qed.

Lemma reachable_attached platform resolve location listeners evs :
  attached (run evs (RaveLevel platform resolve location listeners)).
Proof.
  apply run_attached.
  - cbn. lia.
  - apply RaveLevel_promoted_once.
  - apply RaveLevel_unpromoted.
  - apply RaveLevel_attached.
Qed.

(** X9: while the facade is open, everything the election works on is
    attached to it.  In every execution that leaves the facade open,
    the storage engine handle whose open (line 65) or whose socket
    file cleanup (line 88) is in flight, the handle the facade forwards
    to (line 127), the server whose listen is in flight (line 129) and
    the server whose errors are listened to (line 111) are attached
    resources (lines 63 and 123): the only detach (line 68) is that of
    a handle nothing else refers to. *)
Theorem open_facade_holds_its_handles platform resolve location listeners evs :
  let w := run evs (RaveLevel platform resolve location listeners) in
  status w = Open ->
  (forall s db, CbDbOpen s db ∈ tasks w -> RDb db ∈ resources w) /\
  (forall db, CbUnlink db ∈ tasks w -> RDb db ∈ resources w) /\
  (forall srv, CbListen srv ∈ tasks w -> RServer srv ∈ resources w) /\
  (forall db, forwardTo w = Some db -> RDb db ∈ resources w) /\
  (forall srv, srv ∈ errorL w -> RServer srv ∈ resources w).
Proof.
  intros w Hst.
  destruct (reachable_attached platform resolve location listeners evs Hst)
    as (I1 & I2 & I3).
  fold w in I1, I2, I3. repeat split.
  - intros s db H. exact (I1 _ _ H eq_refl).
  - intros db H. exact (I1 _ _ H eq_refl).
  - intros srv H. exact (I1 _ _ H eq_refl).
  - exact I2.
  - exact I3.
Qed.

Lemma open_facade_holds_its_handles_witness :
  status (run Scenario.to_binding Scenario.fresh_facade) = Open /\
  (forall db, forwardTo (run Scenario.to_binding Scenario.fresh_facade) = Some db ->
     RDb db ∈ resources (run Scenario.to_binding Scenario.fresh_facade)).
Proof.
  assert (H : status (run Scenario.to_binding Scenario.fresh_facade) = Open)
    by (vm_compute; reflexivity).
  split; [exact H|].
  exact (proj1 (proj2 (proj2 (proj2
           (open_facade_holds_its_handles Posix (Path.resolve "/home/u") "db"
              Scenario.no_listeners Scenario.to_binding H))))).
Defined.

(** ** Closing reaches what is in use *)

Lemma closeResource_closes r w :
  exists l, log (exec (closeResource r) w) = log w ++ l /\ closing_call r ∈ l.
Proof.
  destruct r as [db|srv]; cbn [closeResource closing_call].
  - exists [EDbClose db]. destruct w. mred. split; [reflexivity|now left].
  - rewrite serverClose_eq.
    exists (map ESockDestroy (default [] (sockets w !! srv)) ++ [EServerClose srv]).
    destruct w. mred. split; [reflexivity|]. apply elem_of_app. right. now left.
Qed.

Lemma closeAll_closes rs w :
  (forall r, r ∈ rs -> r ∈ resources w) ->
  exists l, log (exec (forEach rs closeResource) w) = log w ++ l /\
            forall r, r ∈ rs -> closing_call r ∈ l.
Proof.
  revert w. induction rs as [|r rs IH]; intros w Hrs.
  - exists []. split; [now rewrite app_nil_r|].
    intros r H. now apply elem_of_nil in H.
  - cbn [forEach]. rewrite exec_bind.
    destruct (closeResource_frame r w) as [_ E].
    { apply Hrs. now left. }
    destruct (IH (exec (closeResource r) w)) as (l & El & Hl).
    { intros r' Hr'. rewrite E. apply Hrs. now right. }
    destruct (closeResource_closes r w) as (l1 & E1 & H1).
    exists (l1 ++ l). split.
    + now rewrite El, E1, app_assoc.
    + intros r' Hr'. apply elem_of_app.
      apply elem_of_cons in Hr' as [->|Hr']; [now left|right; now apply Hl].
Qed.

Lemma close_closes w r :
  status w = Open -> r ∈ resources w ->
  closing_call r ∈ since w (exec close w) /\ status (exec close w) = Closing.
Proof.
  intros Hst Hr. unfold close. rewrite exec_bind. cbn [gets fst exec snd].
  rewrite Hst. cbn [is_open].
  change (snd (?m w)) with (exec m w). rewrite !exec_bind.
  set (w1 := exec (modify (set_status Closing)) w).
  cbn [gets fst]. change (exec (gets resources) w1) with w1.
  assert (R1 : resources w1 = resources w) by (subst w1; now destruct w).
  assert (L1 : log w1 = log w) by (subst w1; now destruct w).
  assert (S1 : status w1 = Closing) by (subst w1; now destruct w).
  destruct (closeAll_closes (resources w1) w1) as (l & El & Hl); [auto|].
  assert (F : owner_frame w1 (exec (forEach (resources w1) closeResource) w1))
    by (apply closeAll_frame; auto).
  destruct F as [_ _ _ _ _ _ _ _ _ F _ _ _ _]. rewrite S1 in F.
  rewrite R1 in Hl. specialize (Hl r Hr). rewrite L1 in El.
  set (w2 := exec (forEach (resources w1) closeResource) w1) in *.
  assert (L3 : forall w', log (exec (later CbClosed)
                                 (exec (modify (set_resources [])) w')) = log w')
    by (now intros []).
  assert (S3 : forall w', status (exec (later CbClosed)
                                    (exec (modify (set_resources [])) w')) = status w')
    by (now intros []).
  unfold since. rewrite L3, S3, El, drop_app_length.
  split; [exact Hl|]. destruct F as [F|[F _]]; [exact F|discriminate F].
Qed.

(** X10: closing an open facade reaches whatever the election has in
    use.  In every execution that leaves the facade open, a close by
    the owner calls [close] on the storage engine handle being opened,
    being cleaned up for or forwarded to, and on the server that listens
    or is about to (lines 62-63 and 113-123), and the facade is then
    closing, so that every later callback of the election returns at
    its status check. *)
Theorem close_reaches_what_is_in_use platform resolve location listeners evs :
  let w := run evs (RaveLevel platform resolve location listeners) in
  status w = Open ->
  (forall s db, CbDbOpen s db ∈ tasks w ->
     EDbClose db ∈ since w (exec (user UClose) w)) /\
  (forall db, CbUnlink db ∈ tasks w ->
     EDbClose db ∈ since w (exec (user UClose) w)) /\
  (forall db, forwardTo w = Some db ->
     EDbClose db ∈ since w (exec (user UClose) w)) /\
  (forall srv, CbListen srv ∈ tasks w \/ srv ∈ errorL w ->
     EServerClose srv ∈ since w (exec (user UClose) w)) /\
  status (exec (user UClose) w) = Closing.
Proof.
  intros w Hst. cbn [user].
  destruct (reachable_attached platform resolve location listeners evs Hst)
    as (I1 & I2 & I3).
  fold w in I1, I2, I3.
  assert (Hc : forall r, r ∈ resources w ->
                 closing_call r ∈ since w (exec close w))
    by (intros r Hr; now apply close_closes).
  repeat split.
  - intros s db H. exact (Hc _ (I1 _ _ H eq_refl)).
  - intros db H. exact (Hc _ (I1 _ _ H eq_refl)).
  - intros db H. exact (Hc _ (I2 _ H)).
  - intros srv [H|H]; [exact (Hc _ (I1 _ _ H eq_refl))|exact (Hc _ (I3 _ H))].
  - unfold close. rewrite exec_bind, exec_gets, fst_gets, Hst. cbn [is_open].
    rewrite !exec_bind. cbn [gets fst].
    set (w1 := exec (modify (set_status Closing)) w).
    change (exec (gets resources) w1) with w1.
    assert (S1 : status w1 = Closing) by (subst w1; now destruct w).
    assert (F : owner_frame w1 (exec (forEach (resources w1) closeResource) w1))
      by (apply closeAll_frame; auto).
    destruct F as [_ _ _ _ _ _ _ _ _ F _ _ _ _]. rewrite S1 in F.
    set (w2 := exec (forEach (resources w1) closeResource) w1) in *.
    assert (S3 : forall w', status (exec (later CbClosed)
                                      (exec (modify (set_resources [])) w'))
                            = status w')
      by (now intros []).
    rewrite S3. destruct F as [F|[F _]]; [exact F|discriminate F].
Qed.

Lemma close_reaches_what_is_in_use_witness :
  status (run Scenario.to_binding Scenario.fresh_facade) = Open /\
  status (exec (user UClose) (run Scenario.to_binding Scenario.fresh_facade))
  = Closing.
Proof.
  assert (H : status (run Scenario.to_binding Scenario.fresh_facade) = Open)
    by (vm_compute; reflexivity).
  split; [exact H|].
  exact (proj2 (proj2 (proj2 (proj2
           (close_reaches_what_is_in_use Posix (Path.resolve "/home/u") "db"
              Scenario.no_listeners Scenario.to_binding H))))).
Defined.

(** ** The scenarios of the specification, run *)

(** Process A opens an empty location: no peer, no artifact, nothing
    outstanding; it becomes leader without a flush barrier. *)
Example leader_of_empty_location :
  log Scenario.leading
  = [ ENetConnect 0 "/home/u/db/rave-level.sock"; EGuestPipe 0;
      ENewDb 1 "/home/u/db"; EAttach (RDb 1); EDbOpen 1;
      EUnlink "/home/u/db/rave-level.sock";
      ECreateServer 2 1; EAttach (RServer 2); EForward 1;
      EServerListen 2 "/home/u/db/rave-level.sock";
      EServerUnref 2; EEmit SigLeader ] /\
  tasks Scenario.leading = [] /\
  forwardTo Scenario.leading = Some 1.
Proof. repeat split; vm_compute; reflexivity. Qed.

(** The location is locked and nobody listens: the retry waits for the
    timer, and the timer starts the next follower connection. *)
Example locked_without_leader_backs_off :
  let w := run [EvDone (CbDbOpen 0 1) (Some Scenario.locked)] Scenario.opening_engine in
  tasks w = [CbTimer] /\ resources w = [] /\ errors (log w) = [] /\
  tasks (run [EvDone CbTimer None] w) = [CbFollowerEnd 2].
Proof. repeat split; vm_compute; reflexivity. Qed.

(** The flush barrier at work: the answer to the outstanding request
    makes the facade signal [flush], whose listener destroys the
    loopback socket; its pipeline then ends without an error signal. *)
Example flush_barrier_drains :
  let w := run [EvAck 3; EvDone (CbLoopEnd 3) None] Scenario.flushing in
  requests w = [] /\ errors (log w) = [] /\ tasks w = [] /\ flushL w = [].
Proof. repeat split; vm_compute; reflexivity. Qed.

(** Closing the leader destroys the follower sockets before the server
    is closed. *)
Example close_of_leader :
  let w := run [EvAccept 2; EvAccept 2; EvUser UClose] Scenario.leading in
  skipn 12 (log w)
  = [ ESockUnref 3; EHostPipe 2 3; ESockUnref 4; EHostPipe 2 4;
      EDbClose 1; ESockDestroy 3; ESockDestroy 4; EServerClose 2 ] /\
  status w = Closing /\ resources w = [] /\ errorL w = [].
Proof. repeat split; vm_compute; reflexivity. Qed.
